(** * PDFProcessor: chunking, indexing and retrieval

  A shallow embedding of [pdfProcessor.js] (class [PDFProcessor]) and of
  the [/pdf/query] route of [server.js].

  - JavaScript strings are sequences of UTF-16 code units; [text.length],
    [lastIndexOf], [slice] and [trim] are modelled on such sequences.
  - The numbers the chunker computes with (cursor, chunk size, overlap,
    row ids) are integers, which JavaScript doubles represent exactly in
    the range the program works in; they are modelled in [Z].  The one
    non-integer, [chunkSize * 0.5], is computed in [Q].
  - The embedding model, the FAISS nearest-neighbour search and the
    Perplexity call are external collaborators: they are parameters of
    the model, and [None] stands for a call that throws. *)

From Stdlib Require Import ZArith NArith List Lia Bool QArith String Ascii Sorted.
Import ListNotations.
Local Open Scope Z_scope.

(** ** JavaScript strings *)

Module JS.

Definition code_unit := N.
Definition jsstring := list code_unit.

(** A string literal of the source, as code units. *)
Definition lit (s : string) : jsstring :=
  map N_of_ascii (list_ascii_of_string s).

Definition FULL_STOP : code_unit := 46%N.
Definition LINE_FEED : code_unit := 10%N.

(** [s.length] *)
Definition length (s : jsstring) : Z := Z.of_nat (List.length s).

(** [s[i]]; [None] is [undefined]. *)
Definition at_ {A} (s : list A) (i : Z) : option A :=
  if i <? 0 then None else nth_error s (Z.to_nat i).

(** Scan [s] from index [i] upward, up to index [limit] included, and keep
    the last index that holds [c]. *)
Fixpoint last_match (s : jsstring) (c : code_unit) (i limit acc : Z) : Z :=
  match s with
  | [] => acc
  | x :: s' =>
      if limit <? i then acc
      else last_match s' c (i + 1) limit (if N.eqb x c then i else acc)
  end.

(** [s.lastIndexOf(c, position)] for a search string of one code unit:
    the greatest index [k], not above [position] clamped to
    [0 .. s.length - 1], with [s[k] = c]; [-1] when there is none. *)
Definition lastIndexOf (s : jsstring) (c : code_unit) (position : Z) : Z :=
  last_match s c 0 (Z.max position 0) (-1).

(** [s.slice(start, end)]: a negative bound counts from the end of [s]. *)
Definition slice (s : jsstring) (start end_ : Z) : jsstring :=
  let len := length s in
  let from := if start <? 0 then Z.max (len + start) 0 else Z.min start len in
  let to := if end_ <? 0 then Z.max (len + end_) 0 else Z.min end_ len in
  let span := Z.max (to - from) 0 in
  firstn (Z.to_nat span) (skipn (Z.to_nat from) s).

(** WhiteSpace and LineTerminator code units, which [trim] strips. *)
Definition isWhiteSpace (c : code_unit) : bool :=
  ((9 <=? c) && (c <=? 13) || (c =? 32) || (c =? 160) || (c =? 5760)
   || (8192 <=? c) && (c <=? 8202) || (c =? 8232) || (c =? 8233)
   || (c =? 8239) || (c =? 8287) || (c =? 12288) || (c =? 65279))%N.

Fixpoint trimStart (s : jsstring) : jsstring :=
  match s with
  | c :: s' => if isWhiteSpace c then trimStart s' else s
  | [] => []
  end.

Definition trimEnd (s : jsstring) : jsstring := rev (trimStart (rev s)).

(** [s.trim()] *)
Definition trim (s : jsstring) : jsstring := trimEnd (trimStart s).

(** [parts.join(sep)] *)
Fixpoint join (sep : jsstring) (parts : list jsstring) : jsstring :=
  match parts with
  | [] => []
  | [p] => p
  | p :: rest => p ++ sep ++ join sep rest
  end.

End JS.

Import JS.

(** ** The chunker: [splitIntoChunks] *)

Module Chunker.

(** [breakPoint > start + chunkSize * 0.5] *)
Definition past_midpoint (breakPoint start chunkSize : Z) : bool :=
  negb (Qle_bool (inject_Z breakPoint)
                 (inject_Z start + inject_Z chunkSize * (1 # 2))).

(** The nearest sentence terminator at or before [end_]. *)
Definition breakPoint (text : jsstring) (end_ : Z) : Z :=
  let lastPeriod := lastIndexOf text FULL_STOP end_ in
  let lastNewline := lastIndexOf text LINE_FEED end_ in
  Z.max lastPeriod lastNewline.

(** The value of [end] when the chunk is sliced (lines 83-94). *)
Definition chunk_end (text : jsstring) (chunkSize start : Z) : Z :=
  let end_ := start + chunkSize in
  if end_ <? length text then
    if past_midpoint (breakPoint text end_) start chunkSize
    then breakPoint text end_ + 1
    else end_
  else end_.

(** The variables of the [while] loop. *)
Record loop_state := { start : Z; chunks : list jsstring }.

(** [if (chunk.length > 0) chunks.push(chunk)] *)
Definition push_chunk (chunk : jsstring) (chunks : list jsstring) :=
  if 0 <? length chunk then chunks ++ [chunk] else chunks.

(** One pass through the body of the loop (lines 83-101). *)
Definition loop_body (text : jsstring) (chunkSize overlap : Z)
           (st : loop_state) : loop_state :=
  let end_ := chunk_end text chunkSize (start st) in
  let chunk := trim (slice text (start st) end_) in
  {| start := end_ - overlap; chunks := push_chunk chunk (chunks st) |}.

(** [while (start < text.length) { ... } return chunks], with a bound on
    the number of passes: [None] means the loop is still running when the
    bound is reached. *)
Fixpoint loop (fuel : nat) (text : jsstring) (chunkSize overlap : Z)
         (st : loop_state) : option (list jsstring) :=
  if start st <? length text then
    match fuel with
    | O => None
    | S fuel' => loop fuel' text chunkSize overlap
                      (loop_body text chunkSize overlap st)
    end
  else Some (chunks st).

Definition init : loop_state := {| start := 0; chunks := [] |}.

Definition splitIntoChunks (fuel : nat) (text : jsstring)
           (chunkSize overlap : Z) : option (list jsstring) :=
  loop fuel text chunkSize overlap init.

(** The loop variables after [n] passes, whether or not the loop has
    stopped before. *)
Definition after (n : nat) (text : jsstring) (chunkSize overlap : Z)
  : loop_state :=
  Nat.iter n (loop_body text chunkSize overlap) init.

(** The defaults of the signature, which every caller in the repository
    relies on. *)
Definition default_chunkSize : Z := 500.
Definition default_overlap : Z := 50.

End Chunker.

(** ** The vector index

    [IndexFlatL2] of faiss-node stores its vectors flat, row after row;
    [d] is the dimension it was created with and [ntotal] the number of
    rows it holds. *)

Record IndexFlatL2 (F : Type) := { d : Z; xb : list F }.
Arguments d {F} _.
Arguments xb {F} _.

(** [new IndexFlatL2(d)] *)
Definition new_IndexFlatL2 {F : Type} (dim : Z) : IndexFlatL2 F :=
  {| d := dim; xb := [] |}.

Definition ntotal {F : Type} (index : IndexFlatL2 F) : Z :=
  Z.of_nat (List.length (xb index)) / d index.

(** [index.add(x)]: [x] holds whole rows, or the call throws. *)
Definition add {F : Type} (index : IndexFlatL2 F) (x : list F)
  : option (IndexFlatL2 F) :=
  if Z.of_nat (List.length x) mod d index =? 0
  then Some {| d := d index; xb := xb index ++ x |}
  else None.

(** ** Collaborators *)

(** [embedder(text, { pooling: 'mean', normalize: true })] *)
Definition Embedder (F : Type) := jsstring -> option (list F).

(** What the processor takes from outside: the number type [F] of vector
    components and distances with its subtraction from one, the loading of
    the embedding model, the index's search (distances and row ids), the
    Perplexity request (an error message or an answer) and the clock. *)
Record Env (F : Type) := {
  pipeline : option (Embedder F);
  search : IndexFlatL2 F -> list F -> Z -> option (list F * list Z);
  one_minus : F -> F;
  queryPerplexity : jsstring -> jsstring -> string + jsstring;
  toISOString_now : jsstring
}.
Arguments pipeline {F} _.
Arguments search {F} _ _ _ _.
Arguments one_minus {F} _ _.
Arguments queryPerplexity {F} _ _ _.
Arguments toISOString_now {F} _.

(** ** The processor's data *)

Record Metadata := {
  chunkIndex : Z;
  startChar : Z;
  endChar : Z;
  pageNumber : Z
}.

(** An entry of the array [searchSimilarChunks] returns.  A field is [None]
    when the source's expression gives [undefined] (or [NaN] for the
    similarity, from [1 - undefined]). *)
Module Result.
Record t (F : Type) := {
  chunk : option jsstring;
  metadata : option Metadata;
  similarity : option F
}.
Arguments chunk {F} _.
Arguments metadata {F} _.
Arguments similarity {F} _.
End Result.

Module Source.
Record t (F : Type) := {
  rank : Z;
  content : jsstring;
  metadata : option Metadata;
  similarity : option F
}.
End Source.

Module Response.
Record t (F : Type) := {
  answer : jsstring;
  sources : list (Source.t F);
  totalChunks : Z;
  relevantChunks : Z;
  query : jsstring;
  timestamp : jsstring;
  supporting_chunks : list (option jsstring)
}.
End Response.

(** The fields of a [PDFProcessor] object. *)
Record PDFProcessor (F : Type) := {
  chunks : list jsstring;
  metadata : list Metadata;
  faissIndex : option (IndexFlatL2 F);
  embedder : option (Embedder F);
  initialized : bool
}.
Arguments chunks {F} _.
Arguments metadata {F} _.
Arguments faissIndex {F} _.
Arguments embedder {F} _.
Arguments initialized {F} _.

(** How an [async] method ends: its promise resolves, or rejects with the
    error thrown, in either case leaving the object in some state;
    [Unfinished] is a chunking loop that has not stopped. *)
Inductive Completion (F : Type) :=
| Resolved (st : PDFProcessor F)
| Rejected (st : PDFProcessor F)
| Unfinished.
Arguments Resolved {F} _.
Arguments Rejected {F} _.
Arguments Unfinished {F}.

Inductive QueryOutcome (F : Type) :=
| Answered (response : Response.t F)
| Failed (message : string).
Arguments Answered {F} _.
Arguments Failed {F} _.

(** The replies of the [/pdf/query] route. *)
Inductive Reply (F : Type) :=
| Status200 (body : Response.t F)
| Status400 (error : string)
| Status500 (error : string).
Arguments Status200 {F} _.
Arguments Status400 {F} _.
Arguments Status500 {F} _.

(** ** The processor's methods *)

Section Methods.

Context {F : Type}.
Variable env : Env F.

(** [constructor()] *)
Definition constructor : PDFProcessor F :=
  {| chunks := []; metadata := []; faissIndex := None; embedder := None;
     initialized := false |}.

(** [initialize()]: [None] when loading the model throws, which leaves the
    fields as they were. *)
Definition initialize (st : PDFProcessor F) : option (PDFProcessor F) :=
  if initialized st then Some st
  else
    match pipeline env with
    | None => None
    | Some model =>
        Some {| chunks := chunks st; metadata := metadata st;
                faissIndex := Some (new_IndexFlatL2 384);
                embedder := Some model;
                initialized := true |}
    end.

(** [this.embedder(text, ...)]; calling [null] throws. *)
Definition call_embedder (st : PDFProcessor F) (text : jsstring)
  : option (list F) :=
  match embedder st with
  | Some model => model text
  | None => None
  end.

Definition set_chunks (st : PDFProcessor F) (cs : list jsstring) :=
  {| chunks := cs; metadata := metadata st; faissIndex := faissIndex st;
     embedder := embedder st; initialized := initialized st |}.

Definition set_metadata (st : PDFProcessor F) (md : list Metadata) :=
  {| chunks := chunks st; metadata := md; faissIndex := faissIndex st;
     embedder := embedder st; initialized := initialized st |}.

Definition set_faissIndex (st : PDFProcessor F) (index : IndexFlatL2 F) :=
  {| chunks := chunks st; metadata := metadata st; faissIndex := Some index;
     embedder := embedder st; initialized := initialized st |}.

(** The metadata pushed for chunk [i] (lines 56-61). *)
Definition chunk_metadata (i textLength : Z) : Metadata :=
  {| chunkIndex := i;
     startChar := i * 500;
     endChar := Z.min ((i + 1) * 500) textLength;
     pageNumber := i / 5 + 1 |}.

(** The [for] loop of lines 50-62 from index [i] on, [todo] being the
    chunks from [i] on: the embeddings collected ([None] when the embedder
    throws) and [this.metadata] as the loop leaves it. *)
Fixpoint embed_chunks (st : PDFProcessor F) (textLength : Z)
         (todo : list jsstring) (i : Z)
         (embeddings : list (list F)) (md : list Metadata)
  : option (list (list F)) * list Metadata :=
  match todo with
  | [] => (Some embeddings, md)
  | chunk :: todo' =>
      match call_embedder st chunk with
      | None => (None, md)
      | Some embedding =>
          embed_chunks st textLength todo' (i + 1)
                       (embeddings ++ [embedding])
                       (md ++ [chunk_metadata i textLength])
      end
  end.

(** Lines 65-69: the embeddings go to the index in one [add]. *)
Definition add_embeddings (st : PDFProcessor F) (embeddings : list (list F))
  : Completion F :=
  if 0 <? Z.of_nat (List.length embeddings) then
    match faissIndex st with
    | None => Rejected st
    | Some index =>
        match add index (List.concat embeddings) with
        | None => Rejected st
        | Some index' => Resolved (set_faissIndex st index')
        end
    end
  else Resolved st.

(** [processPDF(filePath)].  [extracted] is the text [pdf-parse] gives for
    the file, [None] when reading or parsing it throws. *)
Definition processPDF (st : PDFProcessor F) (extracted : option jsstring)
  : Completion F :=
  match initialize st with
  | None => Rejected st
  | Some st1 =>
      match extracted with
      | None => Rejected st1
      | Some text =>
          match Chunker.splitIntoChunks (Z.to_nat (length text)) text
                  Chunker.default_chunkSize Chunker.default_overlap with
          | None => Unfinished
          | Some cs =>
              let st2 := set_chunks st1 cs in
              match embed_chunks st2 (length text) cs 0 [] (metadata st2) with
              | (None, md) => Rejected (set_metadata st2 md)
              | (Some embeddings, md) =>
                  add_embeddings (set_metadata st2 md) embeddings
              end
          end
      end
  end.

(** [indices[i] >= 0 && indices[i] < this.chunks.length] *)
Definition in_range (st : PDFProcessor F) (id : Z) : bool :=
  (0 <=? id) && (id <? Z.of_nat (List.length (chunks st))).

(** The object pushed at lines 123-127 for position [i] of the search
    output. *)
Definition result_at (st : PDFProcessor F) (distances : list F)
           (i : nat) (id : Z) : Result.t F :=
  {| Result.chunk := at_ (chunks st) id;
     Result.metadata := at_ (metadata st) id;
     Result.similarity := option_map (one_minus env) (nth_error distances i) |}.

(** The [for] loop of lines 121-129 from position [i] on, [todo] being the
    row ids from [i] on. *)
Fixpoint collect_results (st : PDFProcessor F) (distances : list F)
         (todo : list Z) (i : nat) (results : list (Result.t F))
  : list (Result.t F) :=
  match todo with
  | [] => results
  | id :: todo' =>
      collect_results st distances todo' (S i)
        (if in_range st id
         then results ++ [result_at st distances i id]
         else results)
  end.

(** [searchSimilarChunks(query, topK)]: every error is caught and gives the
    empty array. *)
Definition searchSimilarChunks (st : PDFProcessor F) (query : jsstring)
           (topK : Z) : list (Result.t F) :=
  if negb (initialized st) || (Z.of_nat (List.length (chunks st)) =? 0)
  then []
  else
    match call_embedder st query with
    | None => []
    | Some queryVector =>
        match faissIndex st with
        | None => []
        | Some index =>
            match search env index queryVector topK with
            | None => []
            | Some (distances, indices) =>
                collect_results st distances indices 0 []
            end
        end
    end.

(** [similarChunks.map((chunk, index) => ({ rank: index + 1, ... }))] from
    position [index] on; [chunk.chunk.substring] throws on [undefined]. *)
Fixpoint sources_from (index : Z) (similarChunks : list (Result.t F))
  : option (list (Source.t F)) :=
  match similarChunks with
  | [] => Some []
  | r :: rest =>
      match Result.chunk r, sources_from (index + 1) rest with
      | Some text, Some srcs =>
          Some ({| Source.rank := index + 1;
                   Source.content := firstn 200 text ++ lit "...";
                   Source.metadata := Result.metadata r;
                   Source.similarity := Result.similarity r |} :: srcs)
      | _, _ => None
      end
  end.

(** [array.join] writes [undefined] as the empty string. *)
Definition text_or_empty (c : option jsstring) : jsstring :=
  match c with Some text => text | None => [] end.

(** [query(userQuery)] *)
Definition query (st : PDFProcessor F) (userQuery : jsstring)
  : QueryOutcome F :=
  let similarChunks := searchSimilarChunks st userQuery 3 in
  if Z.of_nat (List.length similarChunks) =? 0
  then Failed "No relevant chunks found"
  else
    let context :=
      join (lit (String "010" (String "010" EmptyString)))
           (map (fun r => text_or_empty (Result.chunk r)) similarChunks) in
    match queryPerplexity env userQuery context with
    | inl message => Failed message
    | inr answer =>
        match sources_from 0 similarChunks with
        | None => Failed "TypeError"
        | Some srcs =>
            Answered
              {| Response.answer := answer;
                 Response.sources := srcs;
                 Response.totalChunks := Z.of_nat (List.length (chunks st));
                 Response.relevantChunks :=
                   Z.of_nat (List.length similarChunks);
                 Response.query := userQuery;
                 Response.timestamp := toISOString_now env;
                 Response.supporting_chunks :=
                   map (fun r => Result.chunk r) similarChunks |}
        end
    end.

(** [hasDocument()] *)
Definition hasDocument (st : PDFProcessor F) : bool :=
  0 <? Z.of_nat (List.length (chunks st)).

(** [getChunksCount()] *)
Definition getChunksCount (st : PDFProcessor F) : Z :=
  Z.of_nat (List.length (chunks st)).

(** [app.post('/pdf/query', ...)] of [server.js]; [body_query] is
    [req.body.query], [None] when the field is missing. *)
Definition pdf_query_route (st : PDFProcessor F)
           (body_query : option jsstring) : Reply F :=
  match body_query with
  | None => Status400 "Query is required"
  | Some [] => Status400 "Query is required"
  | Some q =>
      if negb (hasDocument st) then Status400 "No document loaded"
      else
        match query st q with
        | Answered response => Status200 response
        | Failed _ => Status500 "Failed to process query"
        end
  end.

End Methods.

(** ** A concrete environment

    Numbers are integers; the model loads and gives every text the zero
    vector of 384 components; the search reports the first [min k ntotal]
    rows at distances 0, 1, 2, ...; Perplexity echoes the question. *)

Definition zero_embedder : Embedder Z := fun _ => Some (repeat 0 384).

Definition first_rows (index : IndexFlatL2 Z) (k : Z) : list Z :=
  map Z.of_nat (seq 0 (Z.to_nat (Z.min k (ntotal index)))).

Definition sample_env : Env Z :=
  {| pipeline := Some zero_embedder;
     search := fun index _ k => Some (first_rows index k, first_rows index k);
     one_minus := fun distance => 1 - distance;
     queryPerplexity := fun userQuery _ => inr userQuery;
     toISOString_now := lit "2025-01-01T00:00:00.000Z" |}.

(** A text of [n] letters [a]. *)
Definition letters (n : nat) : jsstring := repeat 97%N n.

(** The state a successful [processPDF] leaves, or the state given. *)
Definition state_after {F : Type} (c : Completion F) (st : PDFProcessor F)
  : PDFProcessor F :=
  match c with
  | Resolved st' => st'
  | Rejected st' => st'
  | Unfinished => st
  end.

Definition is_resolved {F : Type} (c : Completion F) : bool :=
  match c with Resolved _ => true | _ => false end.

(** The size of the processor's index; an index not yet created holds
    nothing. *)
Definition index_size {F : Type} (st : PDFProcessor F) : Z :=
  match faissIndex st with
  | Some index => ntotal index
  | None => 0
  end.


(** ** Scenarios

    Document A gives 50 chunks and document B gives 10; both are uploaded,
    A first, to a new processor. *)




(** The same with two short documents, of two chunks and of one. *)
Definition after_short_A : PDFProcessor Z :=
  state_after (processPDF sample_env constructor (Some (letters 600)))
              constructor.

Definition after_short_B : PDFProcessor Z :=
  state_after (processPDF sample_env after_short_A (Some (letters 100)))
              after_short_A.


(** ** The windows of the chunker

    Pass [n] of the loop (counting from 0) slices the text from
    [window_start n] up to [window_end n]. *)

Definition window_start (n : nat) (text : jsstring) (chunkSize overlap : Z)
  : Z :=
  Chunker.start (Chunker.after n text chunkSize overlap).

Definition window_end (n : nat) (text : jsstring) (chunkSize overlap : Z)
  : Z :=
  Chunker.chunk_end text chunkSize (window_start n text chunkSize overlap).

(** ** The other routes of [server.js] *)

(** The reply of [app.get('/pdf/status', ...)]. *)
Module StatusReply.
Record t := { status : string; hasDocument : bool; chunksCount : Z }.
End StatusReply.

Definition pdf_status_route {F : Type} (st : PDFProcessor F)
  : StatusReply.t :=
  {| StatusReply.status := "ready";
     StatusReply.hasDocument := hasDocument st;
     StatusReply.chunksCount := getChunksCount st |}.

(** The replies of [app.post('/pdf/upload', ...)]. *)
Inductive UploadReply :=
| Upload200 (message : string) (filename : jsstring) (chunksCount : Z)
| Upload400 (error : string)
| Upload500 (error : string).

(** [app.post('/pdf/upload', ...)].  [file] is [req.file]: the name the
    upload was stored under and the text [pdf-parse] extracts from it
    ([None] when reading or parsing throws).  The route gives its reply and
    leaves the processor in a state; [None] is a handler that never
    replies. *)
Definition pdf_upload_route {F : Type} (env : Env F) (st : PDFProcessor F)
           (file : option (jsstring * option jsstring))
  : option (UploadReply * PDFProcessor F) :=
  match file with
  | None => Some (Upload400 "No PDF file uploaded", st)
  | Some (filename, extracted) =>
      match processPDF env st extracted with
      | Resolved st' =>
          Some (Upload200 "PDF processed successfully" filename
                          (getChunksCount st'), st')
      | Rejected st' => Some (Upload500 "Failed to process PDF", st')
      | Unfinished => None
      end
  end.

(** ** An embedder that fails

    The model loads, embeds a text of 500 code units and throws on every
    other text; a document of 600 letters has a chunk of 500 and one of
    150, so that its second embedding fails. *)

Definition fussy_embedder : Embedder Z :=
  fun text => if length text =? 500 then Some (repeat 0 384) else None.

Definition fussy_env : Env Z :=
  {| pipeline := Some fussy_embedder;
     search := search sample_env;
     one_minus := one_minus sample_env;
     queryPerplexity := queryPerplexity sample_env;
     toISOString_now := toISOString_now sample_env |}.

Definition after_failed : PDFProcessor Z :=
  state_after (processPDF fussy_env constructor (Some (letters 600)))
              constructor.

(** * Properties *)

(** ** Strings *)

Lemma at_nil {A : Type} (i : Z) : @at_ A [] i = None.
Proof.
  unfold at_. destruct (i <? 0); [reflexivity|].
  destruct (Z.to_nat i); reflexivity.
Qed.

Lemma at_head {A : Type} (x : A) (s : list A) : at_ (x :: s) 0 = Some x.
Proof. reflexivity. Qed.

Lemma at_tail {A : Type} (x : A) (s : list A) (i : Z) :
  0 < i -> at_ (x :: s) i = at_ s (i - 1).
Proof.
  intros H. unfold at_.
  destruct (i <? 0) eqn:E1; [apply Z.ltb_lt in E1; lia|].
  destruct (i - 1 <? 0) eqn:E2; [apply Z.ltb_lt in E2; lia|].
  replace (Z.to_nat i) with (S (Z.to_nat (i - 1))) by lia. reflexivity.
Qed.

Lemma at_Some_lt {A : Type} (s : list A) (i : Z) (x : A) :
  at_ s i = Some x -> 0 <= i < Z.of_nat (List.length s).
Proof.
  unfold at_. destruct (i <? 0) eqn:E; [discriminate|].
  apply Z.ltb_ge in E. intros H.
  assert (Z.to_nat i < List.length s)%nat
    by (apply nth_error_Some; congruence).
  lia.
Qed.

Lemma at_lt_Some {A : Type} (s : list A) (i : Z) :
  0 <= i < Z.of_nat (List.length s) -> exists x, at_ s i = Some x.
Proof.
  intros H. unfold at_.
  destruct (i <? 0) eqn:E; [apply Z.ltb_lt in E; lia|].
  destruct (nth_error s (Z.to_nat i)) eqn:N; [eauto|].
  apply nth_error_None in N. lia.
Qed.

Lemma at_app_new {A : Type} (s : list A) (x : A) :
  at_ (s ++ [x]) (Z.of_nat (List.length s)) = Some x.
Proof.
  unfold at_.
  destruct (Z.of_nat (List.length s) <? 0) eqn:E;
    [apply Z.ltb_lt in E; lia|].
  rewrite Nat2Z.id, nth_error_app2 by lia.
  rewrite Nat.sub_diag. reflexivity.
Qed.

Lemma at_app_old {A : Type} (s t : list A) (i : Z) :
  i < Z.of_nat (List.length s) -> at_ (s ++ t) i = at_ s i.
Proof.
  intros H. unfold at_. destruct (i <? 0) eqn:E; [reflexivity|].
  apply Z.ltb_ge in E. apply nth_error_app1. lia.
Qed.

Lemma last_match_spec (s : jsstring) (c : code_unit) :
  forall i limit acc,
    (last_match s c i limit acc = acc
     /\ forall j, i <= j <= limit -> at_ s (j - i) <> Some c)
    \/ (i <= last_match s c i limit acc <= limit
        /\ at_ s (last_match s c i limit acc - i) = Some c
        /\ forall j, last_match s c i limit acc < j <= limit ->
                     at_ s (j - i) <> Some c).
Proof.
  induction s as [|x s IH]; intros i limit acc; cbn [last_match].
  - left. split; [reflexivity|]. intros j _. rewrite at_nil. discriminate.
  - destruct (limit <? i) eqn:E.
    + apply Z.ltb_lt in E. left. split; [reflexivity|]. intros; lia.
    + apply Z.ltb_ge in E.
      specialize (IH (i + 1) limit (if N.eqb x c then i else acc)).
      set (r := last_match s c (i + 1) limit _) in *.
      assert (Hshift : forall j, i < j -> at_ (x :: s) (j - i) = at_ s (j - (i + 1))).
      { intros j Hj. rewrite at_tail by lia. f_equal. lia. }
      destruct IH as [[Hr Hn] | [Hr [Hat Hn]]].
      * destruct (N.eqb x c) eqn:Ex.
        -- apply N.eqb_eq in Ex. subst x. right. rewrite Hr.
           split; [lia|]. split.
           ++ replace (i - i) with 0 by lia. reflexivity.
           ++ intros j Hj. rewrite Hshift by lia. apply Hn. lia.
        -- left. split; [exact Hr|]. intros j Hj.
           destruct (Z.eq_dec j i) as [->|Hne].
           ++ replace (i - i) with 0 by lia. rewrite at_head.
              apply N.eqb_neq in Ex. congruence.
           ++ rewrite Hshift by lia. apply Hn. lia.
      * right. split; [lia|]. split.
        -- rewrite Hshift by lia. exact Hat.
        -- intros j Hj. rewrite Hshift by lia. apply Hn. lia.
Qed.

(** [lastIndexOf] gives the nearest index at or before the clamped
    position that holds [c], or [-1]. *)
Lemma lastIndexOf_spec (s : jsstring) (c : code_unit) (position : Z) :
  (lastIndexOf s c position = -1
   /\ forall j, 0 <= j <= Z.max position 0 -> at_ s j <> Some c)
  \/ (0 <= lastIndexOf s c position <= Z.max position 0
      /\ at_ s (lastIndexOf s c position) = Some c
      /\ forall j, lastIndexOf s c position < j <= Z.max position 0 ->
                   at_ s j <> Some c).
Proof.
  unfold lastIndexOf.
  destruct (last_match_spec s c 0 (Z.max position 0) (-1))
    as [[Hr Hn] | [Hr [Hat Hn]]].
  - left. split; [exact Hr|]. intros j Hj.
    specialize (Hn j Hj). now rewrite Z.sub_0_r in Hn.
  - right. rewrite Z.sub_0_r in Hat. split; [exact Hr|]. split; [exact Hat|].
    intros j Hj. specialize (Hn j Hj). now rewrite Z.sub_0_r in Hn.
Qed.

Lemma lastIndexOf_bounds (s : jsstring) (c : code_unit) (position : Z) :
  -1 <= lastIndexOf s c position <= Z.max position 0
  /\ lastIndexOf s c position < length s.
Proof.
  unfold length.
  destruct (lastIndexOf_spec s c position) as [[Hr _] | [Hr [Hat _]]].
  - rewrite Hr. lia.
  - apply at_Some_lt in Hat. lia.
Qed.

Lemma slice_length_le (s : jsstring) (a b : Z) :
  length (slice s a b)
  <= Z.max ((if b <? 0 then Z.max (length s + b) 0 else Z.min b (length s))
            - (if a <? 0 then Z.max (length s + a) 0 else Z.min a (length s)))
           0.
Proof. unfold slice, length. rewrite length_firstn. lia. Qed.

Lemma trimStart_length_le (s : jsstring) :
  (List.length (trimStart s) <= List.length s)%nat.
Proof.
  induction s as [|c s IH]; cbn [trimStart]; [lia|].
  destruct (isWhiteSpace c); cbn [List.length]; lia.
Qed.

Lemma trim_length_le (s : jsstring) : length (trim s) <= length s.
Proof.
  unfold trim, trimEnd, length. rewrite length_rev.
  pose proof (trimStart_length_le (rev (trimStart s))) as H1.
  pose proof (trimStart_length_le s) as H2.
  rewrite length_rev in H1. lia.
Qed.

(** ** The chunker *)

(** The midpoint test, on integers. *)
Lemma past_midpoint_spec (bp s cs : Z) :
  Chunker.past_midpoint bp s cs = true <-> 2 * s + cs < 2 * bp.
Proof.
  unfold Chunker.past_midpoint. rewrite negb_true_iff. split.
  - intros H. destruct (Z_lt_dec (2 * s + cs) (2 * bp)); [assumption|].
    exfalso.
    assert (E : Qle_bool (inject_Z bp) (inject_Z s + inject_Z cs * (1 # 2))
                = true).
    { apply Qle_bool_iff. unfold Qle. simpl. lia. }
    congruence.
  - intros H.
    destruct (Qle_bool (inject_Z bp) (inject_Z s + inject_Z cs * (1 # 2)))
      eqn:E; [|reflexivity].
    apply Qle_bool_iff in E. unfold Qle in E. simpl in E. lia.
Qed.

Lemma breakPoint_bounds (text : jsstring) (end_ : Z) :
  -1 <= Chunker.breakPoint text end_ <= Z.max end_ 0
  /\ Chunker.breakPoint text end_ < length text.
Proof.
  unfold Chunker.breakPoint.
  pose proof (lastIndexOf_bounds text FULL_STOP end_).
  pose proof (lastIndexOf_bounds text LINE_FEED end_).
  lia.
Qed.

(** The two ways [end] is set. *)
Lemma chunk_end_cases (text : jsstring) (cs s : Z) :
  Chunker.chunk_end text cs s = s + cs
  \/ (s + cs < length text
      /\ 2 * s + cs < 2 * Chunker.breakPoint text (s + cs)
      /\ Chunker.chunk_end text cs s = Chunker.breakPoint text (s + cs) + 1).
Proof.
  unfold Chunker.chunk_end.
  destruct (s + cs <? length text) eqn:E; [|now left].
  destruct (Chunker.past_midpoint _ s cs) eqn:M; [|now left].
  right. apply Z.ltb_lt in E. apply past_midpoint_spec in M. auto.
Qed.

Lemma chunk_length_bound (text : jsstring) (cs s : Z) :
  0 <= cs ->
  length (trim (slice text s (Chunker.chunk_end text cs s))) <= cs + 1.
Proof.
  intros Hcs.
  pose proof (trim_length_le (slice text s (Chunker.chunk_end text cs s)))
    as Ht.
  pose proof (slice_length_le text s (Chunker.chunk_end text cs s)) as Hs.
  pose proof (breakPoint_bounds text (s + cs)) as Hb.
  assert (0 <= length text) by (unfold length; lia).
  revert Hs.
  destruct (chunk_end_cases text cs s) as [E | (H1 & H2 & E)]; rewrite E in *;
    destruct (Z.ltb_spec s 0);
    match goal with |- context [?e <? 0] => destruct (Z.ltb_spec e 0) end;
    intros; lia.
Qed.

Lemma push_chunk_Forall (P : jsstring -> Prop) (chunk : jsstring)
      (chunks : list jsstring) :
  Forall P chunks -> (0 < length chunk -> P chunk) ->
  Forall P (Chunker.push_chunk chunk chunks).
Proof.
  intros Hall Hnew. unfold Chunker.push_chunk.
  destruct (Z.ltb_spec 0 (length chunk)); [|exact Hall].
  apply Forall_app. split; [exact Hall|]. constructor; auto.
Qed.

Lemma push_chunk_length (chunk : jsstring) (chunks : list jsstring) :
  (List.length (Chunker.push_chunk chunk chunks) <= S (List.length chunks))%nat.
Proof.
  unfold Chunker.push_chunk. destruct (0 <? length chunk); [|lia].
  rewrite length_app. cbn. lia.
Qed.

Lemma loop_body_chunks_bound (text : jsstring) (cs ov : Z)
      (st : Chunker.loop_state) :
  0 <= cs ->
  Forall (fun c => 0 < length c <= cs + 1) (Chunker.chunks st) ->
  Forall (fun c => 0 < length c <= cs + 1)
         (Chunker.chunks (Chunker.loop_body text cs ov st)).
Proof.
  intros Hcs Hall. unfold Chunker.loop_body. cbn [Chunker.chunks].
  apply push_chunk_Forall; [exact Hall|].
  intros Hpos. split; [exact Hpos|]. now apply chunk_length_bound.
Qed.

Lemma loop_chunks_bound (text : jsstring) (cs ov : Z) :
  0 <= cs ->
  forall fuel st result,
    Forall (fun c => 0 < length c <= cs + 1) (Chunker.chunks st) ->
    Chunker.loop fuel text cs ov st = Some result ->
    Forall (fun c => 0 < length c <= cs + 1) result.
Proof.
  intros Hcs. induction fuel as [|fuel IH]; intros st result Hall;
    cbn [Chunker.loop]; destruct (Chunker.start st <? length text).
  - discriminate.
  - intros [= <-]. exact Hall.
  - apply IH. now apply loop_body_chunks_bound.
  - intros [= <-]. exact Hall.
Qed.

(** With [overlap < chunkSize] and [2 * overlap <= chunkSize + 2] every
    pass moves the cursor forward. *)
Lemma loop_body_advances (text : jsstring) (cs ov : Z)
      (st : Chunker.loop_state) :
  ov < cs -> 2 * ov <= cs + 2 ->
  Chunker.start st + 1 <= Chunker.start (Chunker.loop_body text cs ov st).
Proof.
  intros H1 H2. unfold Chunker.loop_body. cbn [Chunker.start].
  destruct (chunk_end_cases text cs (Chunker.start st))
    as [E | (_ & Hmid & E)]; rewrite E; lia.
Qed.

Lemma loop_terminates (text : jsstring) (cs ov : Z) :
  ov < cs -> 2 * ov <= cs + 2 ->
  forall fuel st,
    length text - Chunker.start st <= Z.of_nat fuel ->
    exists result,
      Chunker.loop fuel text cs ov st = Some result
      /\ (List.length result <= List.length (Chunker.chunks st) + fuel)%nat.
Proof.
  intros H1 H2. induction fuel as [|fuel IH]; intros st Hfuel;
    cbn [Chunker.loop]; destruct (Z.ltb_spec (Chunker.start st) (length text)).
  - lia.
  - exists (Chunker.chunks st). split; [reflexivity|lia].
  - pose proof (loop_body_advances text cs ov st H1 H2) as Hadv.
    destruct (IH (Chunker.loop_body text cs ov st)) as [r [Hr Hlen]]; [lia|].
    exists r. split; [exact Hr|].
    pose proof (push_chunk_length
                  (trim (slice text (Chunker.start st)
                               (Chunker.chunk_end text cs (Chunker.start st))))
                  (Chunker.chunks st)) as Hp.
    unfold Chunker.loop_body in Hlen. cbn [Chunker.chunks] in Hlen. lia.
  - exists (Chunker.chunks st). split; [reflexivity|lia].
Qed.


(** With [chunkSize <= overlap] and a positive overlap a pass never takes
    the cursor to the end of the text. *)
Lemma loop_body_stalls (text : jsstring) (cs ov : Z)
      (st : Chunker.loop_state) :
  cs <= ov -> 1 <= ov ->
  Chunker.start st < length text ->
  Chunker.start (Chunker.loop_body text cs ov st) < length text.
Proof.
  intros H1 H2 Hs. unfold Chunker.loop_body. cbn [Chunker.start].
  pose proof (breakPoint_bounds text (Chunker.start st + cs)) as Hb.
  destruct (chunk_end_cases text cs (Chunker.start st))
    as [E | (_ & _ & E)]; rewrite E; lia.
Qed.

Lemma loop_never_returns (text : jsstring) (cs ov : Z) :
  cs <= ov -> 1 <= ov ->
  forall fuel st,
    Chunker.start st < length text ->
    Chunker.loop fuel text cs ov st = None.
Proof.
  intros H1 H2. induction fuel as [|fuel IH]; intros st Hs;
    cbn [Chunker.loop]; destruct (Z.ltb_spec (Chunker.start st) (length text));
    try lia; [reflexivity|].
  apply IH. now apply loop_body_stalls.
Qed.

Lemma after_succ (n : nat) (text : jsstring) (cs ov : Z) :
  Chunker.after (S n) text cs ov
  = Chunker.loop_body text cs ov (Chunker.after n text cs ov).
Proof. reflexivity. Qed.

Lemma Qgt_midpoint (bp s cs : Z) :
  (inject_Z bp > inject_Z s + inject_Z cs * (1 # 2))%Q
  <-> 2 * s + cs < 2 * bp.
Proof. unfold Qlt, Qplus, Qmult, inject_Z. cbn [Qnum Qden]. lia. Qed.

(** The break candidate is the nearest full stop or line feed at or before
    the position the search starts from. *)
Lemma breakPoint_nearest (text : jsstring) (end_ : Z) :
  (Chunker.breakPoint text end_ = -1
   /\ forall j, 0 <= j <= Z.max end_ 0 ->
                at_ text j <> Some FULL_STOP /\ at_ text j <> Some LINE_FEED)
  \/ (0 <= Chunker.breakPoint text end_ <= Z.max end_ 0
      /\ (at_ text (Chunker.breakPoint text end_) = Some FULL_STOP
          \/ at_ text (Chunker.breakPoint text end_) = Some LINE_FEED)
      /\ forall j, Chunker.breakPoint text end_ < j <= Z.max end_ 0 ->
                   at_ text j <> Some FULL_STOP
                   /\ at_ text j <> Some LINE_FEED).
Proof.
  unfold Chunker.breakPoint.
  destruct (lastIndexOf_spec text FULL_STOP end_) as [[Hp Np] | [Hp [Ap Np]]];
    destruct (lastIndexOf_spec text LINE_FEED end_) as [[Hn Nn] | [Hn [An Nn]]].
  - left. rewrite Hp, Hn. split; [reflexivity|]. intros j Hj. split; auto.
  - right. rewrite Hp in *. rewrite Z.max_r by lia.
    split; [lia|]. split; [now right|]. intros j Hj. split.
    + apply Np. lia.
    + apply Nn. lia.
  - right. rewrite Hn in *. rewrite Z.max_l by lia.
    split; [lia|]. split; [now left|]. intros j Hj. split.
    + apply Np. lia.
    + apply Nn. lia.
  - right.
    destruct (Z.max_spec (lastIndexOf text FULL_STOP end_)
                         (lastIndexOf text LINE_FEED end_))
      as [[Hlt Hm] | [Hge Hm]]; rewrite Hm.
    + split; [lia|]. split; [now right|]. intros j Hj. split.
      * apply Np. lia.
      * apply Nn. lia.
    + split; [lia|]. split; [now left|]. intros j Hj. split.
      * apply Np. lia.
      * apply Nn. lia.
Qed.




(** C7: what the code does with such parameters.  With
    [chunkSize <= overlap], a positive overlap and a text that is not
    empty, nothing in [splitIntoChunks] stops the loop: after every number
    of passes the cursor is still before the end of the text, and no bound
    on the passes gives a result. *)
Theorem splitIntoChunks_no_guard (text : jsstring) (chunkSize overlap : Z) :
  text <> [] ->
  chunkSize <= overlap ->
  1 <= overlap ->
  (forall n, Chunker.start (Chunker.after n text chunkSize overlap)
             < length text)
  /\ forall fuel, Chunker.splitIntoChunks fuel text chunkSize overlap = None.
Proof.
  intros Hne H1 H2.
  assert (H0 : Chunker.start Chunker.init < length text).
  { destruct text; [congruence|]. unfold length. cbn. lia. }
  split.
  - induction n as [|n IH]; [exact H0|].
    rewrite after_succ. now apply loop_body_stalls.
  - intros fuel. unfold Chunker.splitIntoChunks.
    now apply loop_never_returns.
Qed.

Lemma splitIntoChunks_no_guard_witness :
  (forall n, Chunker.start (Chunker.after n (lit "a") 1 1) < length (lit "a"))
  /\ forall fuel, Chunker.splitIntoChunks fuel (lit "a") 1 1 = None.
Proof.
  apply (splitIntoChunks_no_guard (lit "a") 1 1).
  - discriminate.
  - lia.
  - lia.
Defined.

(** C8.  When the proposed end [start + chunkSize] is before the end of the
    text, the break candidate is the nearest full stop or line feed found
    looking backward from the proposed end ([-1] when there is none); the
    chunk ends with it (so [end] is its index plus one) exactly when its
    index is greater than [start + chunkSize * 0.5], and [end] stays the
    proposed end otherwise. *)
Theorem chunk_end_break_rule (text : jsstring) (chunkSize start : Z) :
  start + chunkSize < length text ->
  ((Chunker.breakPoint text (start + chunkSize) = -1
    /\ forall j, 0 <= j <= Z.max (start + chunkSize) 0 ->
                 at_ text j <> Some FULL_STOP /\ at_ text j <> Some LINE_FEED)
   \/ (0 <= Chunker.breakPoint text (start + chunkSize)
            <= Z.max (start + chunkSize) 0
       /\ (at_ text (Chunker.breakPoint text (start + chunkSize))
           = Some FULL_STOP
           \/ at_ text (Chunker.breakPoint text (start + chunkSize))
              = Some LINE_FEED)
       /\ forall j, Chunker.breakPoint text (start + chunkSize) < j
                    <= Z.max (start + chunkSize) 0 ->
                    at_ text j <> Some FULL_STOP
                    /\ at_ text j <> Some LINE_FEED))
  /\ ((inject_Z (Chunker.breakPoint text (start + chunkSize))
       > inject_Z start + inject_Z chunkSize * (1 # 2))%Q ->
      Chunker.chunk_end text chunkSize start
      = Chunker.breakPoint text (start + chunkSize) + 1)
  /\ (~ (inject_Z (Chunker.breakPoint text (start + chunkSize))
         > inject_Z start + inject_Z chunkSize * (1 # 2))%Q ->
      Chunker.chunk_end text chunkSize start = start + chunkSize).
Proof.
  intros Hlt. split; [apply breakPoint_nearest|].
  unfold Chunker.chunk_end.
  destruct (Z.ltb_spec (start + chunkSize) (length text)); [|lia].
  destruct (Chunker.past_midpoint _ start chunkSize) eqn:M.
  - apply past_midpoint_spec in M. split; [reflexivity|].
    intros Hn. exfalso. apply Hn. now apply Qgt_midpoint.
  - split; [|reflexivity].
    intros Hy. apply Qgt_midpoint in Hy. apply past_midpoint_spec in Hy.
    congruence.
Qed.

Lemma chunk_end_break_rule_witness :
  Chunker.chunk_end (lit "Hello W. orld is big") 10 0 = 7 + 1.
Proof.
  destruct (chunk_end_break_rule (lit "Hello W. orld is big") 10 0)
    as (_ & Haccept & _).
  - vm_compute. reflexivity.
  - apply Haccept. vm_compute. reflexivity.
Defined.

(** C10, as amended.  For every text, every [chunkSize >= 0] and every
    overlap, each chunk [splitIntoChunks] returns, and each chunk pushed
    after any number of passes, is not empty and has at most
    [chunkSize + 1] code units. *)
Theorem splitIntoChunks_chunk_lengths (text : jsstring)
        (chunkSize overlap : Z) :
  0 <= chunkSize ->
  (forall fuel result,
      Chunker.splitIntoChunks fuel text chunkSize overlap = Some result ->
      Forall (fun c => 0 < length c <= chunkSize + 1) result)
  /\ (forall n,
         Forall (fun c => 0 < length c <= chunkSize + 1)
                (Chunker.chunks (Chunker.after n text chunkSize overlap))).
Proof.
  intros Hcs. split.
  - intros fuel result. unfold Chunker.splitIntoChunks.
    apply loop_chunks_bound; [exact Hcs|]. constructor.
  - induction n as [|n IH]; [constructor|].
    rewrite after_succ. now apply loop_body_chunks_bound.
Qed.

Lemma splitIntoChunks_chunk_lengths_witness :
  Forall (fun c => 0 < length c <= 10 + 1)
         [lit "Hello W."; lit "W. orld is"; lit "is big"].
Proof.
  destruct (splitIntoChunks_chunk_lengths (lit "Hello W. orld is big") 10 2)
    as [Hreturned _].
  - lia.
  - apply (Hreturned 10%nat). vm_compute. reflexivity.
Defined.

(** C10, as stated, fails for a negative chunk size: with [chunkSize = -1]
    the text ["."] gives the one chunk ["."], longer than
    [chunkSize + 1 = 0]. *)
Lemma splitIntoChunks_negative_chunkSize :
  Chunker.splitIntoChunks 1 (lit ".") (-1) 0 = Some [lit "."]
  /\ ~ Forall (fun c => 0 < length c <= -1 + 1) [lit "."].
Proof.
  split; [vm_compute; reflexivity|].
  intros H. inversion H as [|c l Hc _]; subst.
  vm_compute in Hc. destruct Hc as [_ Hle]. apply Hle. reflexivity.
Qed.

Example split_small :
  Chunker.splitIntoChunks 10 (lit "Hello W. orld is big") 10 2
  = Some [lit "Hello W."; lit "W. orld is"; lit "is big"].
Proof. vm_compute. reflexivity. Qed.

(** ** Retrieval *)

Section Retrieval.

Context {F : Type}.
Variable env : Env F.
Variable st : PDFProcessor F.

(** The loop of lines 121-129 keeps, in their order, the positions of the
    search output whose row id passes the bound check. *)
Lemma collect_results_spec (distances : list F) :
  forall todo i results,
    collect_results env st distances todo i results
    = results
      ++ map (fun p => result_at env st distances (fst p) (snd p))
             (filter (fun p => in_range st (snd p))
                     (combine (seq i (List.length todo)) todo)).
Proof.
  induction todo as [|id todo IH]; intros i results.
  - cbn. now rewrite app_nil_r.
  - cbn [collect_results List.length seq combine filter snd].
    rewrite IH. destruct (in_range st id); [|reflexivity].
    cbn [map fst snd]. now rewrite <- app_assoc.
Qed.


Lemma in_range_spec (id : Z) :
  in_range st id = true <-> 0 <= id < Z.of_nat (List.length (chunks st)).
Proof.
  unfold in_range. rewrite andb_true_iff, Z.leb_le, Z.ltb_lt. tauto.
Qed.

(** Each result kept belongs to a row id in range, in the order of the row
    ids the search gave. *)
Lemma kept_results_rows (distances : list F) :
  forall todo i,
    Forall2 (fun r id =>
               in_range st id = true
               /\ Result.chunk r = at_ (chunks st) id
               /\ Result.metadata r = at_ (metadata st) id)
            (map (fun p => result_at env st distances (fst p) (snd p))
                 (filter (fun p => in_range st (snd p))
                         (combine (seq i (List.length todo)) todo)))
            (filter (in_range st) todo).
Proof.
  induction todo as [|id todo IH]; intros i; [constructor|].
  cbn [List.length seq combine filter snd].
  destruct (in_range st id) eqn:E; [|apply IH].
  cbn [map fst snd]. constructor; [|apply IH].
  cbn [result_at Result.chunk Result.metadata]. auto.
Qed.


Variable le : F -> F -> Prop.
Hypothesis one_minus_antitone :
  forall a b, le a b -> le (one_minus env b) (one_minus env a).



End Retrieval.









(** ** Building the index *)

Lemma nth_error_seq_map {A : Type} (f : nat -> A) (n j a : nat) :
  (j < n)%nat -> nth_error (map f (seq a n)) j = Some (f (a + j)%nat).
Proof.
  revert a j. induction n as [|n IH]; intros a j Hj; [lia|].
  destruct j as [|j]; cbn [seq map nth_error].
  - now rewrite Nat.add_0_r.
  - rewrite IH by lia. f_equal. f_equal. lia.
Qed.

Lemma concat_length_uniform {A : Type} (n : nat) (ls : list (list A)) :
  Forall (fun l => List.length l = n) ls ->
  List.length (List.concat ls) = (n * List.length ls)%nat.
Proof.
  induction 1 as [|l ls Hl _ IH]; cbn [List.concat List.length]; [lia|].
  rewrite length_app, IH, Hl. lia.
Qed.

Section Building.

Context {F : Type}.
Variable env : Env F.

Lemma initialize_some (st st1 : PDFProcessor F) :
  initialize env st = Some st1 ->
  chunks st1 = chunks st
  /\ metadata st1 = metadata st
  /\ initialized st1 = true
  /\ ((initialized st = true /\ st1 = st)
      \/ (initialized st = false
          /\ faissIndex st1 = Some (new_IndexFlatL2 384)
          /\ exists model,
              pipeline env = Some model /\ embedder st1 = Some model)).
Proof.
  unfold initialize. destruct (initialized st) eqn:I.
  - intros [= <-]. repeat split; auto.
  - destruct (pipeline env) as [model|]; [|discriminate].
    intros [= <-]. cbn. repeat split. right. repeat split. eauto.
Qed.

(** The loop of lines 50-62, when no embedding fails: one metadata entry
    and one embedding more for every chunk, in order. *)
Lemma embed_chunks_resolved (st : PDFProcessor F) (textLength : Z) :
  forall todo i embeddings md embeddings' md',
    0 <= i ->
    embed_chunks st textLength todo i embeddings md = (Some embeddings', md') ->
    md' = md ++ map (fun j => chunk_metadata (Z.of_nat j) textLength)
                    (seq (Z.to_nat i) (List.length todo))
    /\ exists new,
        embeddings' = embeddings ++ new
        /\ Forall2 (fun c v => call_embedder st c = Some v) todo new.
Proof.
  induction todo as [|chunk todo IH]; intros i embeddings md embeddings' md' Hi;
    cbn [embed_chunks].
  - intros [= <- <-]. cbn. rewrite !app_nil_r. split; [reflexivity|].
    exists []. rewrite app_nil_r. split; [reflexivity|constructor].
  - destruct (call_embedder st chunk) as [embedding|] eqn:E; [|discriminate].
    intros Hrun. apply IH in Hrun; [|lia].
    destruct Hrun as [Hmd (new & Hnew & Hall)]. split.
    + rewrite Hmd, <- app_assoc. f_equal.
      cbn [List.length seq map app].
      rewrite Z2Nat.id by lia. f_equal. f_equal. f_equal. lia.
    + exists (embedding :: new). rewrite Hnew, <- app_assoc.
      split; [reflexivity|]. constructor; assumption.
Qed.

(** What a successful [processPDF] leaves. *)
Lemma processPDF_resolved (st : PDFProcessor F) (extracted : option jsstring)
      (st' : PDFProcessor F) :
  processPDF env st extracted = Resolved st' ->
  exists st1 text embeddings,
    initialize env st = Some st1
    /\ extracted = Some text
    /\ Chunker.splitIntoChunks (Z.to_nat (length text)) text
         Chunker.default_chunkSize Chunker.default_overlap
       = Some (chunks st')
    /\ metadata st'
       = metadata st
         ++ map (fun j => chunk_metadata (Z.of_nat j) (length text))
                (seq 0 (List.length (chunks st')))
    /\ Forall2 (fun c v => call_embedder st1 c = Some v)
               (chunks st') embeddings
    /\ ((embeddings = [] /\ faissIndex st' = faissIndex st1)
        \/ exists index index',
            faissIndex st1 = Some index
            /\ add index (List.concat embeddings) = Some index'
            /\ faissIndex st' = Some index').
Proof.
  unfold processPDF.
  destruct (initialize env st) as [st1|] eqn:I; [|discriminate].
  destruct extracted as [text|]; [|discriminate].
  destruct (Chunker.splitIntoChunks _ text _ _) as [cs|] eqn:S;
    [|discriminate].
  destruct (embed_chunks _ _ cs 0 [] _) as [[embeddings|] md] eqn:E;
    [|discriminate].
  apply embed_chunks_resolved in E; [|lia].
  destruct E as [Hmd (new & Hnew & Hall)].
  cbn [app] in Hnew. subst new.
  apply initialize_some in I. destruct I as (Hc & Hm & _).
  cbn [set_chunks metadata] in Hmd. rewrite Hm in Hmd.
  unfold add_embeddings.
  destruct (0 <? Z.of_nat (List.length embeddings)) eqn:Z0.
  - cbn [set_metadata set_chunks faissIndex].
    destruct (faissIndex st1) as [index|] eqn:Ix; [|discriminate].
    destruct (add index (List.concat embeddings)) as [index'|] eqn:A;
      [|discriminate].
    intros [= <-]. exists st1, text, embeddings.
    cbn [set_faissIndex set_metadata set_chunks chunks metadata faissIndex].
    repeat split; auto. right. exists index, index'. auto.
  - intros [= <-]. exists st1, text, embeddings.
    cbn [set_metadata set_chunks chunks metadata faissIndex].
    repeat split; auto. left. split; [|reflexivity].
    destruct embeddings; [reflexivity|].
    apply Z.ltb_ge in Z0. cbn [List.length] in Z0. lia.
Qed.

(** With the defaults the chunking loop of [processPDF] always stops. *)
Lemma processPDF_finishes (st : PDFProcessor F) (extracted : option jsstring) :
  processPDF env st extracted <> Unfinished.
Proof.
  unfold processPDF.
  destruct (initialize env st) as [st1|]; [|discriminate].
  destruct extracted as [text|]; [|discriminate].
  destruct (loop_terminates text Chunker.default_chunkSize
              Chunker.default_overlap ltac:(reflexivity) ltac:(discriminate)
              (Z.to_nat (length text)) Chunker.init) as [r [Hr _]].
  { cbn [Chunker.start Chunker.init]. unfold length. lia. }
  unfold Chunker.splitIntoChunks. rewrite Hr.
  destruct (embed_chunks _ _ r 0 [] _) as [[embeddings|] md];
    [|discriminate].
  unfold add_embeddings.
  destruct (0 <? Z.of_nat (List.length embeddings)); [|discriminate].
  destruct (faissIndex _) as [index|]; [|discriminate].
  destruct (add index _); discriminate.
Qed.

End Building.


Lemma resolved_state_after {F : Type} (c : Completion F)
      (st : PDFProcessor F) :
  is_resolved c = true -> c = Resolved (state_after c st).
Proof. destruct c; cbn; intros H; [reflexivity|discriminate ..]. Qed.


Lemma ntotal_add {F : Type} (index index' : IndexFlatL2 F) (x : list F)
      (rows : nat) :
  d index = 384 ->
  List.length x = (384 * rows)%nat ->
  add index x = Some index' ->
  ntotal index' = ntotal index + Z.of_nat rows.
Proof.
  intros Hd Hx. unfold add.
  destruct (Z.of_nat (List.length x) mod d index =? 0); [|discriminate].
  intros [= <-]. unfold ntotal. cbn [d xb].
  rewrite length_app, Hx, Hd.
  replace (Z.of_nat (List.length (xb index) + 384 * rows))
    with (Z.of_nat (List.length (xb index)) + Z.of_nat rows * 384) by lia.
  apply Z_div_plus. lia.
Qed.







(** * Further properties *)

(** ** Trimming *)

Lemma trimStart_skipn (s : jsstring) :
  exists k, trimStart s = skipn k s.
Proof.
  induction s as [|c s [k IH]]; [now exists 0%nat|].
  cbn [trimStart]. destruct (isWhiteSpace c).
  - exists (S k). exact IH.
  - now exists 0%nat.
Qed.

Lemma trimStart_head (s : jsstring) (c : code_unit) (rest : jsstring) :
  trimStart s = c :: rest -> isWhiteSpace c = false.
Proof.
  induction s as [|x s IH]; cbn [trimStart]; [discriminate|].
  destruct (isWhiteSpace x) eqn:E; [exact IH|].
  intros [= <- _]. exact E.
Qed.

Lemma trimStart_blank (s : jsstring) :
  forallb isWhiteSpace s = true -> trimStart s = [].
Proof.
  induction s as [|c s IH]; [reflexivity|].
  cbn [forallb trimStart]. intros H. apply andb_true_iff in H.
  destruct H as [-> H]. now apply IH.
Qed.

Lemma trimStart_fixed (c : code_unit) (s : jsstring) :
  isWhiteSpace c = false -> trimStart (c :: s) = c :: s.
Proof. intros H. cbn [trimStart]. now rewrite H. Qed.

Lemma trimEnd_firstn (s : jsstring) :
  exists k, trimEnd s = firstn k s.
Proof.
  unfold trimEnd. destruct (trimStart_skipn (rev s)) as [k ->].
  rewrite skipn_rev, rev_involutive. eauto.
Qed.

Lemma trimEnd_last (s init : jsstring) (z : code_unit) :
  trimEnd s = init ++ [z] -> isWhiteSpace z = false.
Proof.
  unfold trimEnd. intros H.
  apply (f_equal (@rev code_unit)) in H.
  rewrite rev_involutive, rev_app_distr in H. cbn [rev app] in H.
  now apply trimStart_head in H.
Qed.

(** What [trim] returns is a piece of its argument. *)
Lemma trim_piece (s : jsstring) :
  exists k n, trim s = firstn n (skipn k s).
Proof.
  unfold trim. destruct (trimStart_skipn s) as [k ->].
  destruct (trimEnd_firstn (skipn k s)) as [n ->]. eauto.
Qed.

Lemma trim_blank (s : jsstring) :
  forallb isWhiteSpace s = true -> trim s = [].
Proof. intros H. unfold trim. now rewrite trimStart_blank. Qed.

Lemma trim_first (s : jsstring) (a : code_unit) (rest : jsstring) :
  trim s = a :: rest -> isWhiteSpace a = false.
Proof.
  unfold trim. destruct (trimEnd_firstn (trimStart s)) as [n ->].
  destruct (trimStart s) as [|c t] eqn:E.
  - rewrite firstn_nil. discriminate.
  - destruct n as [|n]; cbn [firstn]; [discriminate|].
    intros [= <- _]. now apply trimStart_head in E.
Qed.

Lemma trim_last (s init : jsstring) (z : code_unit) :
  trim s = init ++ [z] -> isWhiteSpace z = false.
Proof. unfold trim. apply trimEnd_last. Qed.

Lemma forallb_firstn {A : Type} (f : A -> bool) (n : nat) (l : list A) :
  forallb f l = true -> forallb f (firstn n l) = true.
Proof.
  intros H. apply forallb_forall. intros x Hx.
  rewrite forallb_forall in H. apply H.
  rewrite <- (firstn_skipn n l). apply in_or_app. now left.
Qed.

Lemma forallb_skipn {A : Type} (f : A -> bool) (n : nat) (l : list A) :
  forallb f l = true -> forallb f (skipn n l) = true.
Proof.
  intros H. apply forallb_forall. intros x Hx.
  rewrite forallb_forall in H. apply H.
  rewrite <- (firstn_skipn n l). apply in_or_app. now right.
Qed.

Lemma forallb_slice (f : code_unit -> bool) (s : jsstring) (a b : Z) :
  forallb f s = true -> forallb f (slice s a b) = true.
Proof.
  intros H. unfold slice. now apply forallb_firstn, forallb_skipn.
Qed.

(** A piece of a piece is a piece: what is cut out of [s] by [firstn] and
    [skipn] stands in [s] between a prefix and a suffix. *)
Lemma piece_between {A : Type} (n k : nat) (s : list A) :
  exists before after_, s = before ++ firstn n (skipn k s) ++ after_.
Proof.
  exists (firstn k s), (skipn n (skipn k s)).
  now rewrite firstn_skipn, firstn_skipn.
Qed.

Lemma trim_slice_between (text : jsstring) (a b : Z) :
  exists before after_, text = before ++ trim (slice text a b) ++ after_.
Proof.
  destruct (trim_piece (slice text a b)) as (k & n & ->).
  unfold slice.
  set (from := Z.to_nat _). set (span := Z.to_nat _).
  rewrite skipn_firstn_comm, skipn_skipn, firstn_firstn.
  apply piece_between.
Qed.

(** ** More on the chunker *)

(** A property every trimmed slice of the text has, when it is not empty,
    is a property of every chunk the loop pushes. *)
Lemma loop_body_pushes (P : jsstring -> Prop) (text : jsstring) (cs ov : Z)
      (st : Chunker.loop_state) :
  (forall a b, 0 < length (trim (slice text a b)) ->
               P (trim (slice text a b))) ->
  Forall P (Chunker.chunks st) ->
  Forall P (Chunker.chunks (Chunker.loop_body text cs ov st)).
Proof.
  intros HP Hall. unfold Chunker.loop_body. cbn [Chunker.chunks].
  apply push_chunk_Forall; auto.
Qed.

Lemma loop_pushes (P : jsstring -> Prop) (text : jsstring) (cs ov : Z) :
  (forall a b, 0 < length (trim (slice text a b)) ->
               P (trim (slice text a b))) ->
  forall fuel st result,
    Forall P (Chunker.chunks st) ->
    Chunker.loop fuel text cs ov st = Some result ->
    Forall P result.
Proof.
  intros HP. induction fuel as [|fuel IH]; intros st result Hall;
    cbn [Chunker.loop]; destruct (Chunker.start st <? length text).
  - discriminate.
  - intros [= <-]. exact Hall.
  - apply IH. now apply loop_body_pushes.
  - intros [= <-]. exact Hall.
Qed.

Lemma after_pushes (P : jsstring -> Prop) (text : jsstring) (cs ov : Z) :
  (forall a b, 0 < length (trim (slice text a b)) ->
               P (trim (slice text a b))) ->
  forall n, Forall P (Chunker.chunks (Chunker.after n text cs ov)).
Proof.
  intros HP. induction n as [|n IH]; [constructor|].
  rewrite after_succ. now apply loop_body_pushes.
Qed.

(** X1.  Every chunk [splitIntoChunks] returns is trimmed: its first and
    its last code unit are not whitespace, for every text and all
    parameters. *)
Theorem splitIntoChunks_chunks_trimmed (text : jsstring)
        (chunkSize overlap : Z) (fuel : nat) (result : list jsstring) :
  Chunker.splitIntoChunks fuel text chunkSize overlap = Some result ->
  Forall (fun chunk =>
            (forall a rest, chunk = a :: rest -> isWhiteSpace a = false)
            /\ (forall init z, chunk = init ++ [z] -> isWhiteSpace z = false)
            /\ trim chunk = chunk)
         result.
Proof.
  unfold Chunker.splitIntoChunks.
  apply loop_pushes; [|constructor].
  intros a b _.
  assert (Hfirst : forall c rest, trim (slice text a b) = c :: rest ->
                                  isWhiteSpace c = false)
    by (intros c rest; apply trim_first).
  assert (Hlast : forall init z, trim (slice text a b) = init ++ [z] ->
                                 isWhiteSpace z = false)
    by (intros init z; apply trim_last).
  split; [exact Hfirst|]. split; [exact Hlast|].
  generalize dependent (trim (slice text a b)). intros chunk Hfirst Hlast.
  unfold trim. destruct chunk as [|c chunk]; [reflexivity|].
  rewrite trimStart_fixed by (eapply Hfirst; reflexivity).
  unfold trimEnd.
  destruct (rev (c :: chunk)) as [|z r] eqn:R.
  - apply (f_equal (@rev code_unit)) in R. rewrite rev_involutive in R.
    discriminate.
  - rewrite trimStart_fixed.
    + rewrite <- R. apply rev_involutive.
    + apply (Hlast (rev r) z).
      apply (f_equal (@rev code_unit)) in R. now rewrite rev_involutive in R.
Qed.

Lemma splitIntoChunks_chunks_trimmed_witness :
  Forall (fun chunk =>
            (forall a rest, chunk = a :: rest -> isWhiteSpace a = false)
            /\ (forall init z, chunk = init ++ [z] -> isWhiteSpace z = false)
            /\ trim chunk = chunk)
         [lit "Hello W."; lit "W. orld is"; lit "is big"].
Proof.
  apply (splitIntoChunks_chunks_trimmed (lit "Hello W. orld is big") 10 2
                                        10%nat).
  vm_compute. reflexivity.
Defined.

(** X2.  Every chunk [splitIntoChunks] returns stands in the text as it
    is: the text is a prefix, the chunk, and a suffix.  Nothing in a chunk
    is invented or reordered. *)
Theorem splitIntoChunks_chunks_in_text (text : jsstring)
        (chunkSize overlap : Z) (fuel : nat) (result : list jsstring) :
  Chunker.splitIntoChunks fuel text chunkSize overlap = Some result ->
  Forall (fun chunk =>
            exists before after_, text = before ++ chunk ++ after_)
         result.
Proof.
  unfold Chunker.splitIntoChunks.
  apply loop_pushes; [|constructor].
  intros a b _. apply trim_slice_between.
Qed.

Lemma splitIntoChunks_chunks_in_text_witness :
  Forall (fun chunk =>
            exists before after_,
              lit "Hello W. orld is big" = before ++ chunk ++ after_)
         [lit "Hello W."; lit "W. orld is"; lit "is big"].
Proof.
  apply (splitIntoChunks_chunks_in_text (lit "Hello W. orld is big") 10 2
                                        10%nat).
  vm_compute. reflexivity.
Defined.

Lemma loop_blank_text (text : jsstring) (cs ov : Z) :
  forallb isWhiteSpace text = true ->
  ov < cs -> 2 * ov <= cs + 2 ->
  forall fuel,
    (Z.to_nat (length text) <= fuel)%nat ->
    Chunker.loop fuel text cs ov Chunker.init = Some [].
Proof.
  intros Hblank H1 H2 fuel Hfuel.
  destruct (loop_terminates text cs ov H1 H2 fuel Chunker.init)
    as [r [Hr _]].
  { cbn [Chunker.start Chunker.init]. unfold length in *. lia. }
  rewrite Hr. f_equal.
  assert (Hnone : Forall (fun _ => False) r).
  { apply (loop_pushes (fun _ => False) text cs ov)
      with (fuel := fuel) (st := Chunker.init); [|constructor|exact Hr].
    intros a b Hpos.
    rewrite trim_blank in Hpos by now apply forallb_slice.
    cbn in Hpos. lia. }
  destruct r as [|c r]; [reflexivity|]. now inversion Hnone.
Qed.

(** X3.  A text made of whitespace only, the empty text among them, gives
    no chunk: with parameters under which the loop stops,
    [splitIntoChunks] returns the empty array. *)
Theorem splitIntoChunks_blank_text (text : jsstring) (chunkSize overlap : Z) :
  forallb isWhiteSpace text = true ->
  overlap < chunkSize ->
  2 * overlap <= chunkSize + 2 ->
  forall fuel,
    (Z.to_nat (length text) <= fuel)%nat ->
    Chunker.splitIntoChunks fuel text chunkSize overlap = Some [].
Proof.
  intros Hblank H1 H2 fuel Hfuel. unfold Chunker.splitIntoChunks.
  now apply loop_blank_text.
Qed.

Lemma splitIntoChunks_blank_text_witness :
  Chunker.splitIntoChunks 3 (lit "   ") Chunker.default_chunkSize
                          Chunker.default_overlap = Some [].
Proof.
  apply splitIntoChunks_blank_text.
  - reflexivity.
  - reflexivity.
  - discriminate.
  - vm_compute. lia.
Defined.

(** *** Windows *)

Lemma window_start_succ (n : nat) (text : jsstring) (cs ov : Z) :
  window_start (S n) text cs ov = window_end n text cs ov - ov.
Proof. reflexivity. Qed.

Lemma window_start_advances (n : nat) (text : jsstring) (cs ov : Z) :
  ov < cs -> 2 * ov <= cs + 2 ->
  window_start n text cs ov + 1 <= window_start (S n) text cs ov.
Proof.
  intros H1 H2. unfold window_start. rewrite after_succ.
  now apply loop_body_advances.
Qed.

Lemma window_start_monotone (text : jsstring) (cs ov : Z) :
  ov < cs -> 2 * ov <= cs + 2 ->
  forall n k, (k <= n)%nat ->
              window_start k text cs ov + Z.of_nat (n - k)
              <= window_start n text cs ov.
Proof.
  intros H1 H2. induction n as [|n IH]; intros k Hk.
  - replace k with 0%nat by lia. cbn. lia.
  - destruct (Nat.eq_dec k (S n)) as [->|Hne].
    + rewrite Nat.sub_diag. cbn. lia.
    + pose proof (IH k ltac:(lia)).
      pose proof (window_start_advances n text cs ov H1 H2). lia.
Qed.

Lemma windows_cover_prefix (text : jsstring) (cs ov : Z) :
  0 <= ov ->
  forall n j,
    0 <= j < window_end n text cs ov ->
    exists k, (k <= n)%nat
              /\ window_start k text cs ov <= j < window_end k text cs ov.
Proof.
  intros Hov. induction n as [|n IH]; intros j Hj.
  - exists 0%nat. split; [lia|]. split; [|lia].
    unfold window_start. cbn. lia.
  - destruct (Z_lt_dec j (window_end n text cs ov)) as [Hlt|Hge].
    + destruct (IH j ltac:(lia)) as (k & Hk & Hin). exists k. split; [lia|auto].
    + exists (S n). split; [lia|]. rewrite window_start_succ. lia.
Qed.

(** X4.  With [0 <= overlap < chunkSize] and
    [2 * overlap <= chunkSize + 2], the windows the loop slices cover the
    text: every index of the text lies in the window
    [[window_start n, window_end n)] of a pass [n] that the loop runs (the
    cursor is inside the text at that pass and at all passes before).  The
    chunk of that pass is the window's slice, trimmed, so only whitespace
    at the rim of a window is left out of the chunks. *)
Theorem windows_cover_text (text : jsstring) (chunkSize overlap : Z) :
  0 <= overlap ->
  overlap < chunkSize ->
  2 * overlap <= chunkSize + 2 ->
  forall j,
    0 <= j < length text ->
    exists n,
      (forall k, (k <= n)%nat ->
                 window_start k text chunkSize overlap < length text)
      /\ window_start n text chunkSize overlap <= j
      /\ j < window_end n text chunkSize overlap.
Proof.
  intros H0 H1 H2 j Hj.
  assert (Hreach : j < window_end (Z.to_nat j) text chunkSize overlap).
  { pose proof (window_start_monotone text chunkSize overlap H1 H2
                  (S (Z.to_nat j)) 0%nat ltac:(lia)) as Hm.
    rewrite window_start_succ in Hm.
    change (Chunker.start (Chunker.after 0 text chunkSize overlap)) with 0
      in Hm.
    change (window_start 0 text chunkSize overlap) with 0 in Hm. lia. }
  destruct (windows_cover_prefix text chunkSize overlap H0 (Z.to_nat j) j)
    as (n & _ & Hin); [lia|].
  exists n. split; [|exact Hin].
  intros k Hk.
  pose proof (window_start_monotone text chunkSize overlap H1 H2 n k Hk).
  lia.
Qed.

Lemma windows_cover_text_witness :
  exists n,
    (forall k, (k <= n)%nat ->
               window_start k (lit "Hello W. orld is big") 10 2
               < length (lit "Hello W. orld is big"))
    /\ window_start n (lit "Hello W. orld is big") 10 2 <= 17
    /\ 17 < window_end n (lit "Hello W. orld is big") 10 2.
Proof.
  apply (windows_cover_text (lit "Hello W. orld is big") 10 2).
  - lia.
  - lia.
  - lia.
  - vm_compute. split; [discriminate|reflexivity].
Defined.

(** *** The number of passes and of chunks *)

(** What the loop returns is the chunk list after the first pass count at
    which the cursor has left the text. *)
Lemma loop_from_after (text : jsstring) (cs ov : Z) :
  forall fuel n result,
    Chunker.loop fuel text cs ov (Chunker.after n text cs ov) = Some result ->
    exists passes,
      (n <= passes)%nat
      /\ result = Chunker.chunks (Chunker.after passes text cs ov)
      /\ length text <= window_start passes text cs ov
      /\ forall k, (n <= k < passes)%nat ->
                   window_start k text cs ov < length text.
Proof.
  induction fuel as [|fuel IH]; intros n result; cbn [Chunker.loop];
    destruct (Z.ltb_spec (Chunker.start (Chunker.after n text cs ov))
                         (length text)) as [Hin|Hout].
  - discriminate.
  - intros [= <-]. exists n. split; [lia|]. split; [reflexivity|].
    split; [exact Hout|]. intros; lia.
  - rewrite <- after_succ. intros Hrun. apply IH in Hrun.
    destruct Hrun as (passes & Hle & Hres & Hend & Hbefore).
    exists passes. split; [lia|]. split; [exact Hres|].
    split; [exact Hend|].
    intros k Hk. destruct (Nat.eq_dec k n) as [->|Hne]; [exact Hin|].
    apply Hbefore. lia.
  - intros [= <-]. exists n. split; [lia|]. split; [reflexivity|].
    split; [exact Hout|]. intros; lia.
Qed.

Lemma after_chunks_length (text : jsstring) (cs ov : Z) (n : nat) :
  (List.length (Chunker.chunks (Chunker.after n text cs ov)) <= n)%nat.
Proof.
  induction n as [|n IH]; [cbn; lia|].
  rewrite after_succ. unfold Chunker.loop_body. cbn [Chunker.chunks].
  pose proof (push_chunk_length
                (trim (slice text
                         (Chunker.start (Chunker.after n text cs ov))
                         (Chunker.chunk_end text cs
                            (Chunker.start (Chunker.after n text cs ov)))))
                (Chunker.chunks (Chunker.after n text cs ov))).
  lia.
Qed.

(** With the defaults a pass moves the cursor by at least 202 and, from a
    cursor that is not negative, by at most 451. *)
Lemma default_window_step (text : jsstring) (n : nat) :
  window_start n text Chunker.default_chunkSize Chunker.default_overlap + 202
  <= window_start (S n) text Chunker.default_chunkSize
                  Chunker.default_overlap
  /\ (0 <= window_start n text Chunker.default_chunkSize
                        Chunker.default_overlap ->
      window_start (S n) text Chunker.default_chunkSize
                   Chunker.default_overlap
      <= window_start n text Chunker.default_chunkSize
                      Chunker.default_overlap + 451).
Proof.
  rewrite window_start_succ. unfold window_end.
  set (s := window_start n text Chunker.default_chunkSize
                         Chunker.default_overlap).
  pose proof (breakPoint_bounds text (s + Chunker.default_chunkSize)) as Hb.
  destruct (chunk_end_cases text Chunker.default_chunkSize s)
    as [E | (_ & Hmid & E)]; rewrite E;
    unfold Chunker.default_chunkSize, Chunker.default_overlap in *; lia.
Qed.

Lemma default_window_start_bounds (text : jsstring) (n : nat) :
  202 * Z.of_nat n
  <= window_start n text Chunker.default_chunkSize Chunker.default_overlap
  <= 451 * Z.of_nat n.
Proof.
  induction n as [|n IH]; [unfold window_start; cbn; lia|].
  pose proof (default_window_step text n) as [Hlo Hhi]. lia.
Qed.

(** X5.  With the default parameters [splitIntoChunks] returns at most
    [ceil(text.length / 202)] chunks: every pass moves the cursor forward
    by at least 202 code units. *)
Theorem default_chunk_count_upper (text : jsstring) (fuel : nat)
        (result : list jsstring) :
  Chunker.splitIntoChunks fuel text Chunker.default_chunkSize
                          Chunker.default_overlap = Some result ->
  202 * Z.of_nat (List.length result) <= length text + 201.
Proof.
  unfold Chunker.splitIntoChunks. intros Hrun.
  apply (loop_from_after text _ _ fuel 0%nat) in Hrun.
  destruct Hrun as (passes & _ & -> & _ & Hbefore).
  pose proof (after_chunks_length text Chunker.default_chunkSize
                Chunker.default_overlap passes) as Hlen.
  destruct passes as [|p].
  - cbn [Chunker.after Nat.iter Chunker.chunks Chunker.init List.length].
    unfold length. lia.
  - pose proof (Hbefore p ltac:(lia)) as Hp.
    pose proof (default_window_start_bounds text p). lia.
Qed.

Lemma default_chunk_count_upper_witness :
  202 * Z.of_nat (List.length [letters 500; letters 150])
  <= length (letters 600) + 201.
Proof.
  apply (default_chunk_count_upper (letters 600) 600%nat).
  vm_compute. reflexivity.
Defined.

Lemma trimStart_no_whitespace (s : jsstring) :
  forallb (fun c => negb (isWhiteSpace c)) s = true -> trimStart s = s.
Proof.
  destruct s as [|c s]; [reflexivity|].
  cbn [forallb]. intros H. apply andb_true_iff in H. destruct H as [H _].
  apply trimStart_fixed. now apply negb_true_iff in H.
Qed.

Lemma trim_no_whitespace (s : jsstring) :
  forallb (fun c => negb (isWhiteSpace c)) s = true -> trim s = s.
Proof.
  intros H. unfold trim, trimEnd.
  rewrite (trimStart_no_whitespace s H).
  rewrite trimStart_no_whitespace; [apply rev_involutive|].
  apply forallb_forall. intros x Hx. apply in_rev in Hx.
  rewrite forallb_forall in H. now apply H.
Qed.

Lemma slice_not_empty (s : jsstring) (a b : Z) :
  0 <= a < length s -> a < b -> 0 < length (slice s a b).
Proof.
  intros Ha Hb. unfold slice, length in *.
  rewrite length_firstn, length_skipn.
  destruct (Z.ltb_spec a 0); [lia|].
  destruct (Z.ltb_spec b 0); lia.
Qed.

(** On a text without whitespace every pass of the default loop pushes a
    chunk. *)
Lemma default_after_chunks_count (text : jsstring) :
  forallb (fun c => negb (isWhiteSpace c)) text = true ->
  forall passes,
    (forall k, (k < passes)%nat ->
               window_start k text Chunker.default_chunkSize
                            Chunker.default_overlap < length text) ->
    List.length (Chunker.chunks
                   (Chunker.after passes text Chunker.default_chunkSize
                                  Chunker.default_overlap)) = passes.
Proof.
  intros Hns. induction passes as [|p IH]; intros Hbefore; [reflexivity|].
  rewrite after_succ. unfold Chunker.loop_body. cbn [Chunker.chunks].
  fold (window_start p text Chunker.default_chunkSize
                     Chunker.default_overlap).
  fold (window_end p text Chunker.default_chunkSize Chunker.default_overlap).
  pose proof (default_window_start_bounds text p) as Hs.
  pose proof (default_window_step text p) as [Hstep _].
  rewrite window_start_succ in Hstep.
  unfold Chunker.default_overlap in Hstep at 3.
  rewrite trim_no_whitespace by now apply forallb_slice.
  unfold Chunker.push_chunk.
  pose proof (slice_not_empty text
                (window_start p text Chunker.default_chunkSize
                              Chunker.default_overlap)
                (window_end p text Chunker.default_chunkSize
                            Chunker.default_overlap)) as Hne.
  destruct (Z.ltb_spec 0 (length (slice text
                (window_start p text Chunker.default_chunkSize
                              Chunker.default_overlap)
                (window_end p text Chunker.default_chunkSize
                            Chunker.default_overlap)))) as [_|Hempty].
  - rewrite length_app, IH by (intros k Hk; apply Hbefore; lia).
    cbn [List.length]. lia.
  - specialize (Hbefore p ltac:(lia)). lia.
Qed.

(** X6.  With the default parameters a text without whitespace of
    [text.length] code units gives at least [text.length / 451] chunks: a
    pass moves the cursor by at most 451 and pushes a chunk.  A text of
    1200 letters gives at least 3 chunks. *)
Theorem default_chunk_count_lower (text : jsstring) (fuel : nat)
        (result : list jsstring) :
  forallb (fun c => negb (isWhiteSpace c)) text = true ->
  Chunker.splitIntoChunks fuel text Chunker.default_chunkSize
                          Chunker.default_overlap = Some result ->
  length text <= 451 * Z.of_nat (List.length result).
Proof.
  unfold Chunker.splitIntoChunks. intros Hns Hrun.
  apply (loop_from_after text _ _ fuel 0%nat) in Hrun.
  destruct Hrun as (passes & _ & -> & Hend & Hbefore).
  rewrite (default_after_chunks_count text Hns passes)
    by (intros k Hk; apply Hbefore; lia).
  pose proof (default_window_start_bounds text passes). lia.
Qed.

Lemma default_chunk_count_lower_witness :
  length (letters 1200)
  <= 451 * Z.of_nat (List.length [letters 500; letters 500; letters 300]).
Proof.
  apply (default_chunk_count_lower (letters 1200) 1200%nat).
  - vm_compute. reflexivity.
  - vm_compute. reflexivity.
Defined.

(** ** More on building the index *)

Lemma at_new_metadata (old : list Metadata) (textLength : Z) (n : nat)
      (i : Z) :
  0 <= i < Z.of_nat n ->
  at_ (old ++ map (fun j => chunk_metadata (Z.of_nat j) textLength)
               (seq 0 n))
      (Z.of_nat (List.length old) + i)
  = Some (chunk_metadata i textLength).
Proof.
  intros Hi. unfold at_.
  destruct (Z.ltb_spec (Z.of_nat (List.length old) + i) 0); [lia|].
  rewrite nth_error_app2 by lia.
  replace (Z.to_nat (Z.of_nat (List.length old) + i) - List.length old)%nat
    with (Z.to_nat i) by lia.
  rewrite nth_error_seq_map by lia.
  cbn [Nat.add]. now rewrite Z2Nat.id by lia.
Qed.

Section MoreBuilding.

Context {F : Type}.
Variable env : Env F.

(** The loop of lines 50-62 when an embedding fails: the entries of the
    chunks embedded before are in the metadata list. *)
Lemma embed_chunks_rejected (st : PDFProcessor F) (textLength : Z) :
  forall todo i embeddings md md',
    0 <= i ->
    embed_chunks st textLength todo i embeddings md = (None, md') ->
    exists k,
      (k < List.length todo)%nat
      /\ md' = md ++ map (fun j => chunk_metadata (Z.of_nat j) textLength)
                         (seq (Z.to_nat i) k).
Proof.
  induction todo as [|chunk todo IH]; intros i embeddings md md' Hi;
    cbn [embed_chunks]; [discriminate|].
  destruct (call_embedder st chunk) as [embedding|].
  - intros Hrun. apply IH in Hrun; [|lia].
    destruct Hrun as (k & Hk & ->). exists (S k). split; [cbn; lia|].
    rewrite <- app_assoc. f_equal. cbn [seq map app].
    rewrite Z2Nat.id by lia. f_equal. f_equal. f_equal. lia.
  - intros [= <-]. exists 0%nat. split; [cbn; lia|].
    cbn. now rewrite app_nil_r.
Qed.

Lemma initialize_index (st st1 : PDFProcessor F) :
  initialize env st = Some st1 ->
  faissIndex st1 = faissIndex st
  \/ (initialized st = false /\ faissIndex st1 = Some (new_IndexFlatL2 384)).
Proof.
  intros H. apply initialize_some in H.
  destruct H as (_ & _ & _ & [[_ ->] | (Hi & Hnew & _)]); auto.
Qed.

(** What a rejected [processPDF] leaves. *)
Lemma processPDF_rejected (st : PDFProcessor F) (extracted : option jsstring)
      (st' : PDFProcessor F) :
  processPDF env st extracted = Rejected st' ->
  st' = st
  \/ exists st1,
      initialize env st = Some st1
      /\ faissIndex st' = faissIndex st1
      /\ initialized st' = true
      /\ (st' = st1
          \/ exists text k,
              extracted = Some text
              /\ Chunker.splitIntoChunks (Z.to_nat (length text)) text
                   Chunker.default_chunkSize Chunker.default_overlap
                 = Some (chunks st')
              /\ (k <= List.length (chunks st'))%nat
              /\ metadata st'
                 = metadata st
                   ++ map (fun j => chunk_metadata (Z.of_nat j) (length text))
                          (seq 0 k)).
Proof.
  unfold processPDF.
  destruct (initialize env st) as [st1|] eqn:I; [|intros [= <-]; now left].
  intros Hrun. right. exists st1. split; [reflexivity|]. revert Hrun.
  pose proof (initialize_some env st st1 I) as (_ & Hm & Hinit & _).
  destruct extracted as [text|]; [|intros [= <-]; auto].
  destruct (Chunker.splitIntoChunks _ text _ _) as [cs|] eqn:S;
    [|discriminate].
  destruct (embed_chunks _ _ cs 0 [] _) as [[embeddings|] md] eqn:E.
  - apply embed_chunks_resolved in E; [|lia].
    destruct E as [Hmd _]. cbn [set_chunks metadata] in Hmd.
    rewrite Hm in Hmd. unfold add_embeddings.
    destruct (0 <? Z.of_nat (List.length embeddings)); [|discriminate].
    cbn [set_metadata set_chunks faissIndex].
    assert (Hshape :
      forall st2,
        st2 = set_metadata (set_chunks st1 cs) md ->
        faissIndex st2 = faissIndex st1 /\ initialized st2 = true
        /\ (st2 = st1
            \/ exists text0 k,
                Some text = Some text0
                /\ Chunker.splitIntoChunks (Z.to_nat (length text0)) text0
                     Chunker.default_chunkSize Chunker.default_overlap
                   = Some (chunks st2)
                /\ (k <= List.length (chunks st2))%nat
                /\ metadata st2
                   = metadata st
                     ++ map (fun j =>
                               chunk_metadata (Z.of_nat j) (length text0))
                            (seq 0 k))).
    { intros st2 ->. cbn [set_metadata set_chunks faissIndex initialized
                          chunks metadata].
      split; [reflexivity|]. split; [exact Hinit|]. right.
      exists text, (List.length cs). auto. }
    destruct (faissIndex st1) as [index|] eqn:Ix.
    + destruct (add index (List.concat embeddings)); [discriminate|].
      intros [= <-]. now apply Hshape.
    + intros [= <-]. now apply Hshape.
  - apply embed_chunks_rejected in E; [|lia].
    destruct E as (k & Hk & Hmd). cbn [set_chunks metadata] in Hmd.
    rewrite Hm in Hmd. intros [= <-].
    cbn [set_metadata set_chunks faissIndex initialized chunks metadata].
    split; [reflexivity|]. split; [exact Hinit|]. right.
    exists text, k. repeat split; auto. lia.
Qed.

End MoreBuilding.

Lemma processPDF_resolved_initialized {F : Type} (env : Env F)
      (st : PDFProcessor F) (extracted : option jsstring)
      (st' : PDFProcessor F) :
  processPDF env st extracted = Resolved st' -> initialized st' = true.
Proof.
  unfold processPDF.
  destruct (initialize env st) as [st1|] eqn:I; [|discriminate].
  apply initialize_some in I. destruct I as (_ & _ & Hinit & _).
  destruct extracted as [text|]; [|discriminate].
  destruct (Chunker.splitIntoChunks _ text _ _) as [cs|]; [|discriminate].
  destruct (embed_chunks _ _ cs 0 [] _) as [[embeddings|] md];
    [|discriminate].
  unfold add_embeddings.
  destruct (0 <? Z.of_nat (List.length embeddings)).
  - cbn [set_metadata set_chunks faissIndex].
    destruct (faissIndex st1) as [index|]; [|discriminate].
    destruct (add index (List.concat embeddings)); [|discriminate].
    intros [= <-]. exact Hinit.
  - intros [= <-]. exact Hinit.
Qed.

(** The rows a successful [processPDF] adds, counted from the index as
    [initialize] leaves it. *)
Lemma processPDF_rows_added {F : Type} (env : Env F)
      (st st1 : PDFProcessor F) (extracted : option jsstring)
      (st' : PDFProcessor F) :
  (forall model text v,
      pipeline env = Some model -> model text = Some v ->
      List.length v = 384%nat) ->
  (forall model text v,
      embedder st = Some model -> model text = Some v ->
      List.length v = 384%nat) ->
  (forall index, faissIndex st = Some index -> d index = 384) ->
  initialize env st = Some st1 ->
  processPDF env st extracted = Resolved st' ->
  index_size st' = index_size st1 + getChunksCount st'.
Proof.
  intros Hpipe Hemb Hd Hinit Hrun.
  apply processPDF_resolved in Hrun.
  destruct Hrun as (st1' & text & embeddings & Hinit' & _ & _ & _ & Hall
                    & Hidx).
  rewrite Hinit in Hinit'. injection Hinit' as <-.
  apply initialize_some in Hinit. destruct Hinit as (_ & _ & _ & Hinit).
  assert (Hdim : Forall (fun v => List.length v = 384%nat) embeddings).
  { clear Hidx. induction Hall as [|c v cs vs Hcv _ IH]; constructor; auto.
    unfold call_embedder in Hcv.
    destruct (embedder st1) as [model|] eqn:Em; [|discriminate].
    destruct Hinit as [[_ ->] | (_ & _ & model' & Hp & Hm)].
    - eapply Hemb; eassumption.
    - injection Hm as <-. eapply Hpipe; eassumption. }
  assert (Hd1 : forall index, faissIndex st1 = Some index -> d index = 384).
  { intros index Hix. destruct Hinit as [[_ ->] | (_ & Hnew & _)]; auto.
    rewrite Hnew in Hix. now injection Hix as <-. }
  assert (Hcount : List.length embeddings = List.length (chunks st')).
  { symmetry. eapply Forall2_length. exact Hall. }
  apply concat_length_uniform in Hdim.
  unfold index_size, getChunksCount.
  destruct Hidx as [[-> Hsame] | (index & index' & Hix & Hadd & Hix')].
  - cbn [List.length] in Hcount. rewrite <- Hcount, Hsame.
    cbn [List.length]. lia.
  - rewrite Hix', Hix, <- Hcount.
    apply (ntotal_add index index' (List.concat embeddings)); auto.
Qed.

(** X7.  A successful [processPDF] leaves the processor initialized, with
    the chunk list that [splitIntoChunks] gives for the text with the
    defaults, and with one metadata entry appended for each chunk, after
    the entries that were there: the metadata list is then at least as
    long as the chunk list. *)
Theorem processPDF_resolved_state {F : Type} (env : Env F)
        (st : PDFProcessor F) (extracted : option jsstring)
        (st' : PDFProcessor F) :
  processPDF env st extracted = Resolved st' ->
  initialized st' = true
  /\ (exists text,
         extracted = Some text
         /\ Chunker.splitIntoChunks (Z.to_nat (length text)) text
              Chunker.default_chunkSize Chunker.default_overlap
            = Some (chunks st')
         /\ metadata st'
            = metadata st
              ++ map (fun j => chunk_metadata (Z.of_nat j) (length text))
                     (seq 0 (List.length (chunks st'))))
  /\ Z.of_nat (List.length (metadata st'))
     = Z.of_nat (List.length (metadata st)) + getChunksCount st'
  /\ getChunksCount st' <= Z.of_nat (List.length (metadata st')).
Proof.
  intros Hrun.
  split; [eapply processPDF_resolved_initialized; exact Hrun|].
  apply processPDF_resolved in Hrun.
  destruct Hrun as (st1 & text & embeddings & _ & Hex & Hsplit & Hmd & _).
  split; [exists text; auto|].
  unfold getChunksCount. rewrite Hmd, length_app, length_map, length_seq.
  lia.
Qed.

Lemma processPDF_resolved_state_witness :
  initialized after_short_B = true
  /\ getChunksCount after_short_B
     <= Z.of_nat (List.length (metadata after_short_B)).
Proof.
  destruct (processPDF_resolved_state sample_env after_short_A
              (Some (letters 100)) after_short_B) as (Hi & _ & _ & Hle).
  - refine (resolved_state_after
              (processPDF sample_env after_short_A (Some (letters 100)))
              after_short_A _).
    vm_compute. reflexivity.
  - split; assumption.
Defined.

(** X8.  A [processPDF] that rejects has added no row to the index: the
    index is the one the processor had, or the empty index [initialize]
    has just created.  The chunk list and the metadata are either
    untouched (the model or the text could not be loaded), or the chunk
    list is already that of the new text, and the metadata has the entries
    of the chunks embedded before the failure appended. *)
Theorem processPDF_rejected_state {F : Type} (env : Env F)
        (st : PDFProcessor F) (extracted : option jsstring)
        (st' : PDFProcessor F) :
  processPDF env st extracted = Rejected st' ->
  (faissIndex st' = faissIndex st
   \/ (initialized st = false
       /\ faissIndex st' = Some (new_IndexFlatL2 384)))
  /\ ((chunks st' = chunks st /\ metadata st' = metadata st)
      \/ exists text k,
          extracted = Some text
          /\ Chunker.splitIntoChunks (Z.to_nat (length text)) text
               Chunker.default_chunkSize Chunker.default_overlap
             = Some (chunks st')
          /\ (k <= List.length (chunks st'))%nat
          /\ metadata st'
             = metadata st
               ++ map (fun j => chunk_metadata (Z.of_nat j) (length text))
                      (seq 0 k)).
Proof.
  intros Hrun. apply processPDF_rejected in Hrun.
  destruct Hrun as [-> | (st1 & Hinit & Hix & _ & Hcase)]; [auto|].
  split.
  - rewrite Hix. now apply (initialize_index env).
  - destruct Hcase as [-> | Hnew]; [|now right].
    left. apply initialize_some in Hinit. tauto.
Qed.

Lemma processPDF_rejected_state_witness :
  hasDocument after_failed = true
  /\ index_size after_failed = 0
  /\ Z.of_nat (List.length (metadata after_failed)) = 1
  /\ ((faissIndex after_failed = faissIndex (@constructor Z)
       \/ (initialized (@constructor Z) = false
           /\ faissIndex after_failed = Some (new_IndexFlatL2 384)))
      /\ ((chunks after_failed = chunks (@constructor Z)
           /\ metadata after_failed = metadata (@constructor Z))
          \/ exists text k,
              Some (letters 600) = Some text
              /\ Chunker.splitIntoChunks (Z.to_nat (length text)) text
                   Chunker.default_chunkSize Chunker.default_overlap
                 = Some (chunks after_failed)
              /\ (k <= List.length (chunks after_failed))%nat
              /\ metadata after_failed
                 = metadata (@constructor Z)
                   ++ map (fun j => chunk_metadata (Z.of_nat j) (length text))
                          (seq 0 k))).
Proof.
  split; [vm_compute; reflexivity|].
  split; [vm_compute; reflexivity|].
  split; [vm_compute; reflexivity|].
  apply (processPDF_rejected_state fussy_env constructor
                                   (Some (letters 600)) after_failed).
  vm_compute. reflexivity.
Defined.

(** X9.  The index never holds more rows than the metadata list has
    entries: when that is so before [processPDF] (as it is on a new
    processor), it is so after, whether the call resolves or rejects, for
    an embedder that gives vectors of 384 components. *)
Theorem processPDF_index_within_metadata {F : Type} (env : Env F)
        (st : PDFProcessor F) (extracted : option jsstring) :
  (forall model text v,
      pipeline env = Some model -> model text = Some v ->
      List.length v = 384%nat) ->
  (forall model text v,
      embedder st = Some model -> model text = Some v ->
      List.length v = 384%nat) ->
  (forall index, faissIndex st = Some index -> d index = 384) ->
  index_size st <= Z.of_nat (List.length (metadata st)) ->
  index_size (state_after (processPDF env st extracted) st)
  <= Z.of_nat (List.length
                 (metadata (state_after (processPDF env st extracted) st))).
Proof.
  intros Hpipe Hemb Hd Hinv.
  destruct (processPDF env st extracted) as [st'|st'|] eqn:Hrun;
    cbn [state_after]; [| |exact Hinv].
  - pose proof Hrun as Hres. apply processPDF_resolved in Hres.
    destruct Hres as (st1 & text & _ & Hinit & _ & _ & Hmd & _).
    rewrite (processPDF_rows_added env st st1 extracted st'
               Hpipe Hemb Hd Hinit Hrun).
    rewrite Hmd, length_app, length_map, length_seq.
    unfold getChunksCount.
    assert (index_size st1 <= Z.of_nat (List.length (metadata st))).
    { unfold index_size in *.
      destruct (initialize_index env st st1 Hinit) as [-> | [_ ->]];
        [exact Hinv|].
      unfold ntotal, new_IndexFlatL2. cbn. lia. }
    lia.
  - apply processPDF_rejected in Hrun.
    destruct Hrun as [-> | (st1 & Hinit & Hix & _ & Hcase)]; [exact Hinv|].
    assert (H1 : index_size st' <= Z.of_nat (List.length (metadata st))).
    { unfold index_size in *. rewrite Hix.
      destruct (initialize_index env st st1 Hinit) as [-> | [_ ->]];
        [exact Hinv|].
      unfold ntotal, new_IndexFlatL2. cbn. lia. }
    destruct Hcase as [-> | (text & k & _ & _ & _ & Hmd)].
    + apply initialize_some in Hinit. destruct Hinit as (_ & -> & _).
      exact H1.
    + rewrite Hmd, length_app. lia.
Qed.

Lemma processPDF_index_within_metadata_witness :
  index_size (state_after (processPDF fussy_env constructor
                                      (Some (letters 600))) constructor)
  <= Z.of_nat (List.length
                 (metadata (state_after (processPDF fussy_env constructor
                                                    (Some (letters 600)))
                                        constructor))).
Proof.
  apply (processPDF_index_within_metadata fussy_env constructor
                                          (Some (letters 600))).
  - intros model text v Hm Hv. cbn [pipeline fussy_env] in Hm.
    injection Hm as <-. unfold fussy_embedder in Hv.
    destruct (length text =? 500); [|discriminate].
    injection Hv as <-. vm_compute. reflexivity.
  - intros model text v Hm. discriminate.
  - intros index Hix. discriminate.
  - vm_compute. discriminate.
Defined.


(** X11.  [initialize] is idempotent and leaves the chunks and the
    metadata alone: once it has succeeded a further call changes nothing,
    so that the index is created once in the life of a processor; and on
    an initialized processor it does not consult the model loader. *)
Theorem initialize_idempotent {F : Type} (env : Env F)
        (st st1 : PDFProcessor F) :
  initialize env st = Some st1 ->
  initialize env st1 = Some st1
  /\ chunks st1 = chunks st
  /\ metadata st1 = metadata st
  /\ (initialized st = true -> st1 = st)
  /\ forall env', initialize env' st1 = Some st1.
Proof.
  intros H. apply initialize_some in H.
  destruct H as (Hc & Hm & Hi & Hcase).
  assert (Hagain : forall env', initialize env' st1 = Some st1).
  { intros env'. unfold initialize. now rewrite Hi. }
  split; [apply Hagain|]. split; [exact Hc|]. split; [exact Hm|].
  split; [|exact Hagain].
  intros Hinit. destruct Hcase as [[_ ->] | [Hf _]]; congruence.
Qed.

Lemma initialize_idempotent_witness :
  initialize fussy_env after_short_A = Some after_short_A.
Proof.
  destruct (initialize_idempotent sample_env after_short_A after_short_A)
    as (_ & _ & _ & _ & Hany).
  - vm_compute. reflexivity.
  - apply Hany.
Defined.

(** X12.  A document whose text is whitespace only (or empty) is
    processed successfully and empties the chunk list: [hasDocument()] is
    false afterwards and [getChunksCount()] is 0, while the metadata and
    the index keep what an earlier document left. *)
Theorem processPDF_blank_document {F : Type} (env : Env F)
        (st st1 : PDFProcessor F) (text : jsstring) :
  initialize env st = Some st1 ->
  forallb isWhiteSpace text = true ->
  processPDF env st (Some text) = Resolved (set_chunks st1 [])
  /\ hasDocument (set_chunks st1 []) = false
  /\ getChunksCount (set_chunks st1 []) = 0
  /\ metadata (set_chunks st1 []) = metadata st
  /\ faissIndex (set_chunks st1 []) = faissIndex st1.
Proof.
  intros Hinit Hblank. split.
  - unfold processPDF. rewrite Hinit. unfold Chunker.splitIntoChunks.
    rewrite loop_blank_text;
      [reflexivity|exact Hblank|reflexivity|discriminate|lia].
  - apply initialize_some in Hinit. destruct Hinit as (_ & Hm & _).
    repeat split. exact Hm.
Qed.

Lemma processPDF_blank_document_witness :
  processPDF sample_env after_short_A (Some (lit "  "))
  = Resolved (set_chunks after_short_A [])
  /\ hasDocument (set_chunks after_short_A []) = false
  /\ index_size (set_chunks after_short_A []) = 2.
Proof.
  destruct (processPDF_blank_document sample_env after_short_A after_short_A
              (lit "  ")) as (Hrun & Hdoc & _).
  - vm_compute. reflexivity.
  - reflexivity.
  - split; [exact Hrun|]. split; [exact Hdoc|]. vm_compute. reflexivity.
Defined.

(** ** More on retrieval and the query *)

Lemma Forall2_Forall_l {A B : Type} (P : A -> B -> Prop) (Q : A -> Prop)
      (l : list A) (l' : list B) :
  (forall a b, P a b -> Q a) -> Forall2 P l l' -> Forall Q l.
Proof.
  intros HPQ. induction 1; constructor; eauto.
Qed.

(** Every result of [searchSimilarChunks] is made from a row id in range
    and the entries of the chunk list and of the metadata list at it. *)
Lemma searchSimilarChunks_each {F : Type} (env : Env F)
      (st : PDFProcessor F) (query : jsstring) (topK : Z) :
  Forall (fun r =>
            exists id,
              0 <= id < getChunksCount st
              /\ Result.chunk r = at_ (chunks st) id
              /\ Result.metadata r = at_ (metadata st) id)
         (searchSimilarChunks env st query topK).
Proof.
  unfold searchSimilarChunks.
  destruct (negb (initialized st)
            || (Z.of_nat (List.length (chunks st)) =? 0)); [constructor|].
  destruct (call_embedder st query) as [queryVector|]; [|constructor].
  destruct (faissIndex st) as [index|]; [|constructor].
  destruct (search env index queryVector topK) as [[distances indices]|];
    [|constructor].
  rewrite collect_results_spec. cbn [app].
  eapply Forall2_Forall_l; [|apply kept_results_rows].
  intros r id (Hin & Hc & Hm). cbn beta in *.
  exists id. apply in_range_spec in Hin. auto.
Qed.

(** X13.  Retrieval over the first document of a processor is aligned:
    after a successful [processPDF] on a processor whose metadata list was
    empty, every result of [searchSimilarChunks] carries a chunk of the
    list together with the metadata entry pushed for that very chunk
    ([chunkIndex] is the chunk's row, [pageNumber] is
    [floor(row / 5) + 1]). *)
Theorem first_document_results_aligned {F : Type} (env : Env F)
        (st0 : PDFProcessor F) (extracted : option jsstring)
        (st : PDFProcessor F) (query : jsstring) (topK : Z) :
  metadata st0 = [] ->
  processPDF env st0 extracted = Resolved st ->
  Forall (fun r =>
            exists id text m,
              0 <= id < getChunksCount st
              /\ at_ (chunks st) id = Some text
              /\ Result.chunk r = Some text
              /\ Result.metadata r = Some m
              /\ chunkIndex m = id
              /\ pageNumber m = id / 5 + 1)
         (searchSimilarChunks env st query topK).
Proof.
  intros Hempty Hrun. apply processPDF_resolved in Hrun.
  destruct Hrun as (st1 & doc & embeddings & _ & _ & _ & Hmd & _).
  rewrite Hempty in Hmd.
  eapply Forall_impl; [|apply searchSimilarChunks_each].
  intros r (id & Hid & Hc & Hm). unfold getChunksCount in *.
  destruct (at_lt_Some (chunks st) id Hid) as [text Htext].
  exists id, text, (chunk_metadata id (length doc)).
  split; [exact Hid|]. split; [exact Htext|]. split; [congruence|].
  split; [|split; reflexivity].
  rewrite Hm, Hmd.
  pose proof (at_new_metadata [] (length doc) (List.length (chunks st)) id Hid)
    as Hat.
  cbn [List.length Z.of_nat Z.add] in Hat. exact Hat.
Qed.

Lemma first_document_results_aligned_witness :
  Forall (fun r =>
            exists id text m,
              0 <= id < getChunksCount after_short_A
              /\ at_ (chunks after_short_A) id = Some text
              /\ Result.chunk r = Some text
              /\ Result.metadata r = Some m
              /\ chunkIndex m = id
              /\ pageNumber m = id / 5 + 1)
         (searchSimilarChunks sample_env after_short_A (lit "leave") 3).
Proof.
  apply (first_document_results_aligned sample_env constructor
           (Some (letters 600)) after_short_A).
  - reflexivity.
  - refine (resolved_state_after
              (processPDF sample_env constructor (Some (letters 600)))
              constructor _).
    vm_compute. reflexivity.
Defined.

(** [sources_from] succeeds on results that all have a chunk, and numbers
    the sources from [index + 1] on. *)
Lemma sources_from_defined {F : Type} (similarChunks : list (Result.t F)) :
  Forall (fun r => exists text, Result.chunk r = Some text) similarChunks ->
  forall index,
    exists srcs,
      sources_from index similarChunks = Some srcs
      /\ Forall2 (fun s r =>
                    exists text,
                      Result.chunk r = Some text
                      /\ Source.content F s = firstn 200 text ++ lit "..."
                      /\ Source.metadata F s = Result.metadata r
                      /\ Source.similarity F s = Result.similarity r)
                 srcs similarChunks
      /\ map (Source.rank F) srcs
         = map (fun j => index + 1 + Z.of_nat j)
               (seq 0 (List.length similarChunks)).
Proof.
  induction 1 as [|r rs [text Hr] _ IH]; intros index.
  - exists []. repeat split; constructor.
  - destruct (IH (index + 1)) as (srcs & Hs & Hall & Hrank).
    cbn [sources_from]. rewrite Hr, Hs. eexists. split; [reflexivity|].
    split.
    + constructor; [|exact Hall]. exists text. cbn. auto.
    + cbn [map List.length seq Source.rank]. f_equal; [lia|].
      rewrite Hrank, <- seq_shift, map_map.
      apply map_ext. intros j. lia.
Qed.

(** X14.  [query] ends in one of three ways.  With no similar chunk it
    fails with "No relevant chunks found" and Perplexity is not asked.
    Otherwise Perplexity is asked with the chunks joined by blank lines:
    its error is the error of [query]; its answer comes back with one
    source per similar chunk, in order and ranked 1, 2, ..., each with the
    first 200 code units of its chunk followed by "...", and with the
    counts of the chunk list and of the similar chunks.  Formatting the
    sources never fails. *)
Theorem query_outcomes {F : Type} (env : Env F) (st : PDFProcessor F)
        (userQuery : jsstring) :
  let similarChunks := searchSimilarChunks env st userQuery 3 in
  let context :=
    join (lit (String "010" (String "010" EmptyString)))
         (map (fun r => text_or_empty (Result.chunk r)) similarChunks) in
  (similarChunks = []
   /\ query env st userQuery = Failed "No relevant chunks found")
  \/ (similarChunks <> []
      /\ exists message,
          queryPerplexity env userQuery context = inl message
          /\ query env st userQuery = Failed message)
  \/ (similarChunks <> []
      /\ exists answer response,
          queryPerplexity env userQuery context = inr answer
          /\ query env st userQuery = Answered response
          /\ Response.answer F response = answer
          /\ Response.query F response = userQuery
          /\ Response.totalChunks F response = getChunksCount st
          /\ Response.relevantChunks F response
             = Z.of_nat (List.length similarChunks)
          /\ Response.supporting_chunks F response
             = map (fun r => Result.chunk r) similarChunks
          /\ Forall2 (fun s r =>
                        exists text,
                          Result.chunk r = Some text
                          /\ Source.content F s
                             = firstn 200 text ++ lit "..."
                          /\ Source.metadata F s = Result.metadata r
                          /\ Source.similarity F s = Result.similarity r)
                     (Response.sources F response) similarChunks
          /\ map (Source.rank F) (Response.sources F response)
             = map (fun j => 0 + 1 + Z.of_nat j)
                   (seq 0 (List.length similarChunks))).
Proof.
  cbv zeta.
  pose proof (searchSimilarChunks_each env st userQuery 3) as Heach.
  unfold query.
  destruct (searchSimilarChunks env st userQuery 3) as [|r rs] eqn:Hsim.
  - left. split; reflexivity.
  - right.
    replace (Z.of_nat (List.length (r :: rs)) =? 0) with false
      by (symmetry; apply Z.eqb_neq; cbn [List.length]; lia).
    destruct (queryPerplexity env userQuery _) as [message|answer] eqn:Hq.
    + left. split; [discriminate|]. exists message. split; reflexivity.
    + right. split; [discriminate|].
      assert (Hchunks : Forall (fun x => exists text,
                                    Result.chunk x = Some text) (r :: rs)).
      { eapply Forall_impl; [|exact Heach].
        intros x (id & Hid & Hc & _). unfold getChunksCount in Hid.
        destruct (at_lt_Some (chunks st) id Hid) as [text Htext].
        exists text. congruence. }
      destruct (sources_from_defined (r :: rs) Hchunks 0)
        as (srcs & Hs & Hall & Hrank).
      rewrite Hs. eexists. eexists. split; [reflexivity|].
      split; [reflexivity|]. cbn [Response.answer Response.query
        Response.totalChunks Response.relevantChunks
        Response.supporting_chunks Response.sources].
      unfold getChunksCount. repeat split; auto.
Qed.

Lemma query_outcomes_witness :
  exists response,
    query sample_env after_short_A (lit "leave") = Answered response
    /\ Response.relevantChunks Z response = 2
    /\ map (Source.rank Z) (Response.sources Z response) = [1; 2].
Proof.
  destruct (query_outcomes sample_env after_short_A (lit "leave"))
    as [[Hnone _] | [(_ & message & Hfail & _)
                    | (_ & answer & response & _ & Hq & _ & _ & _ & Hrel
                       & _ & _ & Hrank)]].
  - vm_compute in Hnone. discriminate.
  - cbn [queryPerplexity sample_env] in Hfail. discriminate.
  - exists response. split; [exact Hq|].
    assert (Hn : List.length (searchSimilarChunks sample_env after_short_A
                                                  (lit "leave") 3) = 2%nat)
      by (vm_compute; reflexivity).
    rewrite Hn in Hrel, Hrank. split; [exact Hrel|exact Hrank].
Defined.

(** X15.  The upload route always replies.  Without a file it answers 400
    and leaves the processor as it was; a rejected [processPDF] gives 500;
    a resolved one gives 200 with the count [getChunksCount()] of the new
    state, which is the count the status route then reports, with
    [hasDocument] true exactly when the count is positive.  After such a
    200 the query route answers "No document loaded" to a query exactly
    when the count is 0. *)
Theorem pdf_upload_route_replies {F : Type} (env : Env F)
        (st : PDFProcessor F) (file : option (jsstring * option jsstring)) :
  exists reply st',
    pdf_upload_route env st file = Some (reply, st')
    /\ match reply with
       | Upload400 error =>
           file = None /\ st' = st /\ error = "No PDF file uploaded"%string
       | Upload500 error =>
           error = "Failed to process PDF"%string
           /\ exists filename extracted,
               file = Some (filename, extracted)
               /\ processPDF env st extracted = Rejected st'
       | Upload200 message filename chunksCount =>
           (exists extracted,
               file = Some (filename, extracted)
               /\ processPDF env st extracted = Resolved st')
           /\ chunksCount = getChunksCount st'
           /\ pdf_status_route st'
              = {| StatusReply.status := "ready";
                   StatusReply.hasDocument := 0 <? chunksCount;
                   StatusReply.chunksCount := chunksCount |}
           /\ forall q rest,
               pdf_query_route env st' (Some (q :: rest))
               = Status400 "No document loaded"
               <-> chunksCount = 0
       end.
Proof.
  unfold pdf_upload_route. destruct file as [[filename extracted]|].
  - pose proof (processPDF_finishes env st extracted) as Hfin.
    destruct (processPDF env st extracted) as [st'|st'|] eqn:Hrun;
      [| |congruence].
    + exists (Upload200 "PDF processed successfully" filename
                        (getChunksCount st')), st'.
      split; [reflexivity|].
      split; [eauto|]. split; [reflexivity|]. split; [reflexivity|].
      intros q rest. unfold pdf_query_route, hasDocument, getChunksCount.
      destruct (Z.ltb_spec 0 (Z.of_nat (List.length (chunks st'))))
        as [Hpos|Hzero]; cbn [negb].
      * split; [|lia].
        destruct (query env st' (q :: rest)); discriminate.
      * split; [lia|reflexivity].
    + exists (Upload500 "Failed to process PDF"), st'.
      split; [reflexivity|]. split; [reflexivity|]. eauto.
  - exists (Upload400 "No PDF file uploaded"), st.
    split; [reflexivity|]. auto.
Qed.

Lemma slice_whole (s : jsstring) (b : Z) :
  length s <= b -> slice s 0 b = s.
Proof.
  intros Hb. unfold slice, length in *.
  destruct (Z.ltb_spec b 0); [lia|].
  cbn [Z.ltb Z.compare]. rewrite Z.min_r by lia.
  rewrite Z.min_l by lia. cbn [Z.to_nat skipn].
  replace (Z.to_nat (Z.max (Z.of_nat (List.length s) - 0) 0))
    with (List.length s) by lia.
  apply firstn_all.
Qed.

(** X16.  A text that fits in one window and its step
    ([text.length <= chunkSize - overlap], with [overlap >= 0]; 450 code
    units with the defaults) comes back as one chunk, the trimmed text, or
    as no chunk when it is blank; one pass of the loop is enough. *)
Theorem splitIntoChunks_short_text (text : jsstring) (chunkSize overlap : Z)
        (fuel : nat) :
  0 <= overlap ->
  length text <= chunkSize - overlap ->
  Chunker.splitIntoChunks (S fuel) text chunkSize overlap
  = Some (if 0 <? length (trim text) then [trim text] else []).
Proof.
  intros Hov Hfit. unfold Chunker.splitIntoChunks.
  cbn [Chunker.loop Chunker.init Chunker.start].
  destruct (Z.ltb_spec 0 (length text)) as [Hpos|Hempty].
  - assert (Hend : Chunker.chunk_end text chunkSize 0 = chunkSize).
    { unfold Chunker.chunk_end. cbn [Z.add].
      destruct (Z.ltb_spec chunkSize (length text)); [lia|reflexivity]. }
    unfold Chunker.loop_body.
    change (Chunker.start Chunker.init) with 0.
    change (Chunker.chunks Chunker.init) with (@nil jsstring).
    rewrite Hend, slice_whole by lia.
    assert (Hstop : forall f st,
               length text <= Chunker.start st ->
               Chunker.loop f text chunkSize overlap st
               = Some (Chunker.chunks st)).
    { intros f st Hst. destruct f; cbn [Chunker.loop];
        destruct (Z.ltb_spec (Chunker.start st) (length text));
        try lia; reflexivity. }
    rewrite Hstop by (cbn [Chunker.start]; lia).
    reflexivity.
  - destruct text as [|c text]; [reflexivity|].
    unfold length in Hempty. cbn [List.length] in Hempty. lia.
Qed.

Lemma splitIntoChunks_short_text_witness :
  Chunker.splitIntoChunks 1 (lit "  Leave is 20 days.  ")
                          Chunker.default_chunkSize Chunker.default_overlap
  = Some [lit "Leave is 20 days."].
Proof.
  apply (splitIntoChunks_short_text (lit "  Leave is 20 days.  ")
           Chunker.default_chunkSize Chunker.default_overlap 0).
  - discriminate.
  - vm_compute. discriminate.
Defined.
